(** * Employee retention risk pipeline: a shallow embedding

    The repository is one notebook, [Full_Retention_Model_Walkthrough.ipynb],
    whose cells form a linear batch pipeline over a pandas [DataFrame] named
    [df]: feature engineering, standardisation, train/test split with SMOTE,
    recursive feature elimination, model fitting, scoring, tiering and export.

    The data frame is modelled as an ordered association list of named
    columns.  A float64 cell is an exact rational or one of the three special
    values of the format, so arithmetic is the real-number arithmetic the
    floats approximate; rounding is outside the model.  Library calls that
    raise are modelled in an error monad.  The fitted estimators (random
    forest, calibration, SMOTE, the seeded shuffle) are parameters of the
    sections that need them. *)

From Stdlib Require Import String.
From Stdlib Require Import QArith Qround Qminmax ZArith Bool Lia Lqa.
From Stdlib Require Import List Permutation Sorted PeanoNat.
Import ListNotations.

Open Scope string_scope.
Open Scope Q_scope.
Open Scope list_scope.

(** ** Errors raised by the libraries *)

Inductive error : Type :=
| KeyError
| TypeError
| ValueError
| IndexError
| NameError.

(** The outcome of a statement: a value, a raised error, or a loop that has
    not finished when the fuel given to it ran out. *)
Inductive result (A : Type) : Type :=
| Ok (a : A)
| Err (e : error)
| OutOfFuel.

Arguments Ok {A} a.
Arguments Err {A} e.
Arguments OutOfFuel {A}.

Definition bind {A B : Type} (m : result A) (k : A -> result B) : result B :=
  match m with
  | Ok a => k a
  | Err e => Err e
  | OutOfFuel => OutOfFuel
  end.

Notation "x <- m ;; k" := (bind m (fun x => k))
  (at level 61, m at next level, right associativity).

(** ** Cells, series and frames *)

(** A float64 value at exact precision. *)
Inductive cell : Type :=
| Fin (q : Q)
| PInf
| NInf
| NaN.

Inductive risk_level : Type :=
| LowRisk
| ModerateRisk
| HighRisk.

(** A pandas [Series]: a float column, or the categorical column that
    [pd.cut] returns ([None] is the missing category). *)
Inductive series : Type :=
| Floats (xs : list cell)
| Categorical (xs : list (option risk_level)).

Definition frame : Type := list (string * series).

Definition columns (df : frame) : list string := map fst df.

(** ["name" in df.columns] *)
Definition has_column (name : string) (df : frame) : bool :=
  existsb (String.eqb name) (columns df).

Fixpoint lookup (name : string) (df : frame) : option series :=
  match df with
  | [] => None
  | (n, s) :: rest => if String.eqb name n then Some s else lookup name rest
  end.

(** [df["name"]] *)
Definition getitem (name : string) (df : frame) : result series :=
  match lookup name df with
  | Some s => Ok s
  | None => Err KeyError
  end.

(** [df["name"] = s]: an existing column is overwritten in place, a new one
    is appended after the last column. *)
Fixpoint setitem (name : string) (s : series) (df : frame) : frame :=
  match df with
  | [] => [(name, s)]
  | (n, s0) :: rest =>
      if String.eqb name n then (n, s) :: rest
      else (n, s0) :: setitem name s rest
  end.

Inductive errors_mode : Type :=
| Raise
| Ignore.

(** [df.drop(columns=names, errors=mode)]: the named columns are removed; a
    name that is not a column raises [KeyError] unless [errors='ignore']. *)
Definition drop (names : list string) (mode : errors_mode) (df : frame)
  : result frame :=
  let kept := filter (fun c => negb (existsb (String.eqb (fst c)) names)) df in
  match mode with
  | Ignore => Ok kept
  | Raise =>
      if forallb (fun n => has_column n df) names then Ok kept
      else Err KeyError
  end.

(** ** Float arithmetic on cells *)

Definition Qsign (q : Q) : comparison := q ?= 0.

Definition cadd (a b : cell) : cell :=
  match a, b with
  | NaN, _ | _, NaN => NaN
  | Fin x, Fin y => Fin (x + y)
  | PInf, NInf | NInf, PInf => NaN
  | PInf, _ | _, PInf => PInf
  | NInf, _ | _, NInf => NInf
  end.

Definition cneg (a : cell) : cell :=
  match a with
  | Fin x => Fin (- x)
  | PInf => NInf
  | NInf => PInf
  | NaN => NaN
  end.

(** An infinity times a finite value: the sign of the value decides, and
    zero times infinity is not a number. *)
Definition inf_by_sign (inf : cell) (q : Q) : cell :=
  match Qsign q with
  | Gt => inf
  | Lt => cneg inf
  | Eq => NaN
  end.

Definition cmul (a b : cell) : cell :=
  match a, b with
  | NaN, _ | _, NaN => NaN
  | Fin x, Fin y => Fin (x * y)
  | Fin x, PInf => inf_by_sign PInf x
  | Fin x, NInf => inf_by_sign NInf x
  | PInf, Fin y => inf_by_sign PInf y
  | NInf, Fin y => inf_by_sign NInf y
  | PInf, PInf | NInf, NInf => PInf
  | PInf, NInf | NInf, PInf => NInf
  end.

(** True division.  A zero divisor raises nothing: the quotient is an
    infinity, or not a number for 0/0. *)
Definition cdiv (a b : cell) : cell :=
  match a, b with
  | NaN, _ | _, NaN => NaN
  | Fin x, Fin y =>
      if Qeq_bool y 0 then inf_by_sign PInf x else Fin (x / y)
  | Fin _, PInf | Fin _, NInf => Fin 0
  | PInf, Fin y => if Qeq_bool y 0 then PInf else inf_by_sign PInf y
  | NInf, Fin y => if Qeq_bool y 0 then NInf else inf_by_sign NInf y
  | PInf, _ | NInf, _ => NaN
  end.

(** Element-wise operations on series.  Arithmetic on a categorical column
    raises [TypeError]. *)
Fixpoint map2 {A B C : Type} (f : A -> B -> C) (xs : list A) (ys : list B)
  : list C :=
  match xs, ys with
  | x :: xs', y :: ys' => f x y :: map2 f xs' ys'
  | _, _ => []
  end.

Definition series_binop (f : cell -> cell -> cell) (a b : series)
  : result series :=
  match a, b with
  | Floats xs, Floats ys => Ok (Floats (map2 f xs ys))
  | _, _ => Err TypeError
  end.

Definition series_mul : series -> series -> result series := series_binop cmul.
Definition series_div : series -> series -> result series := series_binop cdiv.

(** [s + k] for a scalar [k]. *)
Definition series_add_scalar (a : series) (k : Q) : result series :=
  match a with
  | Floats xs => Ok (Floats (map (fun x => cadd x (Fin k)) xs))
  | Categorical _ => Err TypeError
  end.

(** ** Cell 2: feature engineering *)

Definition Engagement_Index (df : frame) : result frame :=
  if has_column "JobSatisfaction" df && has_column "WorkLifeBalance" df
  then
    a <- getitem "JobSatisfaction" df ;;
    b <- getitem "WorkLifeBalance" df ;;
    v <- series_mul a b ;;
    Ok (setitem "Engagement_Index" v df)
  else Ok df.

Definition Promotion_Rate (df : frame) : result frame :=
  if has_column "YearsSinceLastPromotion" df && has_column "YearsAtCompany" df
  then
    a <- getitem "YearsSinceLastPromotion" df ;;
    b <- getitem "YearsAtCompany" df ;;
    d <- series_add_scalar b 1 ;;
    v <- series_div a d ;;
    Ok (setitem "Promotion_Rate" v df)
  else Ok df.

Definition Overtime_SensitiveRole (df : frame) : result frame :=
  if has_column "Doing_Overtime" df && has_column "Laboratory_Technician" df
  then
    a <- getitem "Doing_Overtime" df ;;
    b <- getitem "Laboratory_Technician" df ;;
    v <- series_mul a b ;;
    Ok (setitem "Overtime_SensitiveRole" v df)
  else Ok df.

(** The columns the cell derives, and the columns it reads. *)
Definition derived_names : list string :=
  ["Engagement_Index"; "Promotion_Rate"; "Overtime_SensitiveRole"].

Definition optional_sources : list string :=
  ["JobSatisfaction"; "WorkLifeBalance"; "YearsSinceLastPromotion";
   "YearsAtCompany"; "Doing_Overtime"; "Laboratory_Technician"].

(** The three statements of the cell, in order, on the same [df]. *)
Definition feature_engineer (df : frame) : result frame :=
  df1 <- Engagement_Index df ;;
  df2 <- Promotion_Rate df1 ;;
  Overtime_SensitiveRole df2.

(** The common shape of the three statements of the cell. *)
Definition derive (a b out : string)
  (formula : series -> series -> result series) (df : frame) : result frame :=
  if has_column a df && has_column b df
  then
    x <- getitem a df ;;
    y <- getitem b df ;;
    v <- formula x y ;;
    Ok (setitem out v df)
  else Ok df.

Definition promotion_formula (a b : series) : result series :=
  d <- series_add_scalar b 1 ;;
  series_div a d.

(** What one statement does when it succeeds: either both sources exist and
    the derived column is assigned the formula's value, or one is missing
    and the frame is left as it is. *)
Inductive derived (a b out : string)
  (formula : series -> series -> result series) (df : frame)
  : frame -> Prop :=
| derived_set x y v :
    lookup a df = Some x -> lookup b df = Some y -> formula x y = Ok v ->
    derived a b out formula df (setitem out v df)
| derived_skip :
    has_column a df && has_column b df = false ->
    derived a b out formula df df.

(** The divisor of the promotion rate, [df["YearsAtCompany"] + 1], and
    whether one of its cells is zero. *)
Definition promotion_denominator (df : frame) : result series :=
  b <- getitem "YearsAtCompany" df ;;
  series_add_scalar b 1.

Definition zero_cell (c : cell) : bool :=
  match c with
  | Fin q => Qeq_bool q 0
  | _ => false
  end.

Definition divides_by_zero (divisor : series) : bool :=
  match divisor with
  | Floats xs => existsb zero_cell xs
  | Categorical _ => false
  end.

Definition minus_one_cell (c : cell) : bool :=
  match c with
  | Fin q => Qeq_bool q (-1)
  | _ => false
  end.

(** ** Matrices and generic list helpers *)

(** A numeric array of shape (n_samples, n_features), stored by column. *)
Definition matrix : Type := list (list cell).

Definition n_features (X : matrix) : nat := length X.

Definition n_samples (X : matrix) : nat :=
  match X with
  | [] => 0%nat
  | c :: _ => length c
  end.

(** [a[idx]]: the rows of an array at the given positions, in that order. *)
Definition take_rows {A : Type} (d : A) (idx : list nat) (col : list A)
  : list A :=
  map (fun i => nth i col d) idx.

Definition matrix_rows (idx : list nat) (X : matrix) : matrix :=
  map (take_rows NaN idx) X.

(** [a[:, mask]] for a boolean mask. *)
Fixpoint select {A : Type} (mask : list bool) (xs : list A) : list A :=
  match mask, xs with
  | b :: mask', x :: xs' =>
      if b then x :: select mask' xs' else select mask' xs'
  | _, _ => []
  end.

Definition count_true (mask : list bool) : nat :=
  length (filter (fun b => b) mask).

(** Insertion sort by a boolean order; stable. *)
Fixpoint insert_by {A : Type} (le : A -> A -> bool) (x : A) (l : list A)
  : list A :=
  match l with
  | [] => [x]
  | y :: t => if le x y then x :: l else y :: insert_by le x t
  end.

Fixpoint sort_by {A : Type} (le : A -> A -> bool) (l : list A) : list A :=
  match l with
  | [] => []
  | x :: t => insert_by le x (sort_by le t)
  end.

Definition enumerate {A : Type} (l : list A) : list (nat * A) :=
  combine (seq 0 (length l)) l.

(** [np.argsort(v)]: the positions of [v] in ascending order of value. *)
Definition argsort (v : list Q) : list nat :=
  map fst (sort_by (fun a b => Qle_bool (snd a) (snd b)) (enumerate v)).

(** The positions of [v] in descending order of value. *)
Definition argsort_desc (v : list Q) : list nat :=
  map fst (sort_by (fun a b => Qle_bool (snd b) (snd a)) (enumerate v)).

Definition Qsum (l : list Q) : Q := fold_right Qplus 0 l.

(** ** StandardScaler *)

Definition is_inf (c : cell) : bool :=
  match c with
  | PInf | NInf => true
  | _ => false
  end.

(** The values of a column that are not missing. *)
Fixpoint present (col : list cell) : list Q :=
  match col with
  | [] => []
  | Fin q :: t => q :: present t
  | _ :: t => present t
  end.

(** [np.asarray(X, dtype=float)] on a data frame: a categorical column of
    labels does not convert. *)
Fixpoint to_numeric (df : frame) : result matrix :=
  match df with
  | [] => Ok []
  | (_, Floats xs) :: rest => m <- to_numeric rest ;; Ok (xs :: m)
  | (_, Categorical _) :: rest => Err ValueError
  end.

(** [check_array(X, force_all_finite='allow-nan')]: at least one sample and
    one feature, no infinity. *)
Definition check_array (X : matrix) : result matrix :=
  if (n_features X =? 0)%nat then Err ValueError
  else if (n_samples X =? 0)%nat then Err ValueError
  else if existsb (existsb is_inf) X then Err ValueError
  else Ok X.

(** The fitted attributes of a [StandardScaler], one entry per column. *)
Record column_params : Type := mk_params {
  mean_ : cell;
  var_ : cell;
  scale_ : cell
}.

Record StandardScaler : Type := mk_scaler {
  feature_names_in_ : list string;
  params_ : list column_params
}.

Section Standardize.

(** The floating-point square root. *)
Variable fsqrt : Q -> Q.

Definition nanmean (col : list cell) : cell :=
  match present col with
  | [] => NaN
  | v => Fin (Qsum v / inject_Z (Z.of_nat (length v)))
  end.

Definition nanvar (col : list cell) : cell :=
  match present col with
  | [] => NaN
  | v =>
      let m := Qsum v / inject_Z (Z.of_nat (length v)) in
      Fin (Qsum (map (fun x => (x - m) * (x - m)) v)
           / inject_Z (Z.of_nat (length v)))
  end.

(** [sqrt(var_)], a zero scale being replaced by one. *)
Definition scale_of_var (v : cell) : cell :=
  match v with
  | Fin q => if Qeq_bool q 0 then Fin 1 else Fin (fsqrt q)
  | other => other
  end.

Definition fit_column (col : list cell) : column_params :=
  mk_params (nanmean col) (nanvar col) (scale_of_var (nanvar col)).

Definition transform_column (p : column_params) (col : list cell)
  : list cell :=
  map (fun x => cdiv (cadd x (cneg (mean_ p))) (scale_ p)) col.

(** [scaler_std.fit_transform(X)] for a data frame [X]: the scaler object is
    refitted (whatever it held is replaced) and the standardized array is
    returned. *)
Definition fit_transform (scaler_std : option StandardScaler) (X : frame)
  : result (option StandardScaler * matrix) :=
  m <- to_numeric X ;;
  m <- check_array m ;;
  let ps := map fit_column m in
  Ok (Some (mk_scaler (columns X) ps), map2 transform_column ps m).

End Standardize.

(** ** Cell 3: features, target and the first fit of the scaler *)

Record prepared : Type := mk_prepared {
  X : frame;
  y : series;
  scaler_std : option StandardScaler;
  X_scaled : matrix
}.

Definition prepare (fsqrt : Q -> Q) (df : frame) : result prepared :=
  X <- drop ["Retained"; "EmployeeNumber"] Ignore df ;;
  y <- getitem "Retained" df ;;
  r <- fit_transform fsqrt None X ;;
  Ok (mk_prepared X y (fst r) (snd r)).

(** ** Cell 4: train/test split and SMOTE *)

Definition series_length (s : series) : nat :=
  match s with
  | Floats xs => length xs
  | Categorical xs => length xs
  end.

Definition series_rows (idx : list nat) (s : series) : series :=
  match s with
  | Floats xs => Floats (take_rows NaN idx xs)
  | Categorical xs => Categorical (take_rows None idx xs)
  end.

(** The variables a split-and-balance cell binds.  The two resampled arrays
    are unbound until the oversampler has run. *)
Record split_vars : Type := mk_split {
  X_train : matrix;
  X_test : matrix;
  y_train : series;
  y_test : series;
  X_train_resampled : option matrix;
  y_train_resampled : option series
}.

Section SplitBalance.

(** [np.random.RandomState(42).permutation(n)] *)
Variable permutation : nat -> list nat.

(** [SMOTE(random_state=42).fit_resample]: returns new arrays, or raises
    when the minority class is too small for its neighbours. *)
Variable fit_resample : matrix -> series -> result (matrix * series).

(** [train_test_split(X, y, test_size=0.2, random_state=42)]:
    [n_test = ceil(0.2 * n)], [n_train = n - n_test]; the test rows are the
    first [n_test] positions of the shuffle, the training rows the next
    [n_train]. *)
Definition train_test_split (X : matrix) (y : series) : result split_vars :=
  let n := n_samples X in
  if negb (series_length y =? n)%nat then Err ValueError
  else
    let n_test := ((n + 4) / 5)%nat in
    let n_train := (n - n_test)%nat in
    if (n_train =? 0)%nat then Err ValueError
    else
      let p := permutation n in
      let ind_test := firstn n_test p in
      let ind_train := firstn n_train (skipn n_test p) in
      Ok (mk_split (matrix_rows ind_train X) (matrix_rows ind_test X)
                   (series_rows ind_train y) (series_rows ind_test y)
                   None None).

(** [X_train_resampled, y_train_resampled = sm.fit_resample(X_train, y_train)] *)
Definition balance (st : split_vars) : result split_vars :=
  r <- fit_resample (X_train st) (y_train st) ;;
  Ok (mk_split (X_train st) (X_test st) (y_train st) (y_test st)
               (Some (fst r)) (Some (snd r))).

Definition split_and_balance (X : matrix) (y : series) : result split_vars :=
  st <- train_test_split X y ;;
  balance st.

End SplitBalance.

(** How often a label occurs in a label vector. *)
Definition cell_eqb (a b : cell) : bool :=
  match a, b with
  | Fin x, Fin y => Qeq_bool x y
  | PInf, PInf | NInf, NInf | NaN, NaN => true
  | _, _ => false
  end.

Definition label_count (l : cell) (y : series) : nat :=
  match y with
  | Floats xs => length (filter (cell_eqb l) xs)
  | Categorical _ => 0%nat
  end.

(** ** Cell 5: recursive feature elimination *)

Definition n_features_to_select : nat := 20.
Definition step : nat := 1.

(** [np.arange(n_features)[support_]] *)
Definition features_of (support : list bool) : list nat :=
  select support (seq 0 (length support)).

Fixpoint set_false (i : nat) (support : list bool) : list bool :=
  match support, i with
  | [], _ => []
  | _ :: t, O => false :: t
  | b :: t, S i' => b :: set_false i' t
  end.

(** [features[ranks]]: positions beyond the end raise [IndexError]. *)
Fixpoint index_all (features : list nat) (ranks : list nat)
  : result (list nat) :=
  match ranks with
  | [] => Ok []
  | r :: rest =>
      match nth_error features r with
      | Some f => fs <- index_all features rest ;; Ok (f :: fs)
      | None => Err IndexError
      end
  end.

Section FeatureSelection.

(** The importances of the forest fitted in a given round on the remaining
    columns, one per column it was fitted on.  The forest is not seeded, so
    the round is an argument. *)
Variable importances : nat -> matrix -> series -> list Q.

(** The loop of [RFE.fit]: while more than [n_features_to_select] columns
    remain, fit, rank, and clear the [threshold] least important ones. *)
Fixpoint rfe_loop (fuel round : nat) (X : matrix) (y : series)
  (support_ : list bool) : result (list bool) :=
  if (count_true support_ <=? n_features_to_select)%nat then Ok support_
  else
    match fuel with
    | O => OutOfFuel
    | S fuel' =>
        let features := features_of support_ in
        let ranks := argsort (importances round (select support_ X) y) in
        let threshold :=
          Nat.min step (count_true support_ - n_features_to_select) in
        ranked <- index_all features ranks ;;
        let support' :=
          fold_left (fun s f => set_false f s) (firstn threshold ranked)
                    support_ in
        rfe_loop fuel' (S round) X y support'
    end.

(** [RFE(estimator, n_features_to_select=20).fit(X, y).support_] *)
Definition rfe_fit (X : matrix) (y : series) : result (list bool) :=
  rfe_loop (n_features X) 0 X y (repeat true (n_features X)).

End FeatureSelection.

(** The variables cell 5 binds. *)
Record selected : Type := mk_selected {
  support_ : list bool;
  X_selected : frame;
  scaler_std' : option StandardScaler;
  X_scaled_selected : matrix;
  sel : split_vars
}.

Definition select_features (fsqrt : Q -> Q) (permutation : nat -> list nat)
  (fit_resample : matrix -> series -> result (matrix * series))
  (importances : nat -> matrix -> series -> list Q)
  (p : prepared) : result selected :=
  support <- rfe_fit importances (X_scaled p) (y p) ;;
  let X_selected := select support (X p) in
  r <- fit_transform fsqrt (scaler_std p) X_selected ;;
  st <- split_and_balance permutation fit_resample (snd r) (y p) ;;
  Ok (mk_selected support X_selected (fst r) (snd r) st).

(** ** Cell 8: risk score and tiers *)

(** [len(df)] *)
Definition n_rows (df : frame) : nat :=
  match df with
  | [] => 0%nat
  | (_, s) :: _ => series_length s
  end.

(** [df[name] = values] for an array of values: its length must be the
    number of rows. *)
Definition assign (name : string) (s : series) (df : frame) : result frame :=
  if (series_length s =? n_rows df)%nat then Ok (setitem name s df)
  else Err ValueError.

Definition Qminimum (x : Q) (l : list Q) : Q := fold_right Qmin x l.
Definition Qmaximum (x : Q) (l : list Q) : Q := fold_right Qmax x l.

(** The fitted attributes of a [MinMaxScaler] with the default feature range
    (0, 1), for its single column. *)
Record MinMaxScaler : Type := mk_minmax {
  data_min_ : Q;
  data_max_ : Q;
  mm_scale_ : Q;
  mm_min_ : Q
}.

(** A zero range is replaced by one before the division. *)
Definition handle_zeros_in_scale (r : Q) : Q :=
  if Qeq_bool r 0 then 1 else r.

Definition minmax_fit (col : list Q) : result MinMaxScaler :=
  match col with
  | [] => Err ValueError
  | x :: rest =>
      let lo := Qminimum x rest in
      let hi := Qmaximum x rest in
      let scale := (1 - 0) / handle_zeros_in_scale (hi - lo) in
      Ok (mk_minmax lo hi scale (0 - lo * scale))
  end.

Definition minmax_transform (s : MinMaxScaler) (col : list Q) : list Q :=
  map (fun x => x * mm_scale_ s + mm_min_ s) col.

(** [MinMaxScaler().fit_transform(col)] *)
Definition minmax_fit_transform (col : list Q) : result (list Q) :=
  s <- minmax_fit col ;;
  Ok (minmax_transform s col).

(** [1 - scaler.fit_transform(df[["Predicted_Prob_Stay"]])] *)
Definition retention_risk (prob_stay : list Q) : result (list Q) :=
  t <- minmax_fit_transform prob_stay ;;
  Ok (map (fun v => 1 - v) t).

(** The risk of one row as a fitted scaler computes it: one minus the
    transformed probability. *)
Definition risk_of (s : MinMaxScaler) (x : Q) : Q :=
  1 - (x * mm_scale_ s + mm_min_ s).

(** [Series.quantile(q)], linear interpolation between the two order
    statistics around position [(n - 1) * q]; not a number on no data. *)
Definition quantile (v : list Q) (q : Q) : cell :=
  match v with
  | [] => NaN
  | _ =>
      let a := sort_by Qle_bool v in
      let n := length a in
      let h := inject_Z (Z.of_nat (n - 1)) * q in
      let i := Z.to_nat (Qfloor h) in
      let g := h - inject_Z (Qfloor h) in
      let lo := nth i a 0 in
      let hi := nth (Nat.min (S i) (n - 1)) a 0 in
      Fin (lo + (hi - lo) * g)
  end.

(** Strict order of float values; nothing compares with not-a-number. *)
Definition clt (a b : cell) : bool :=
  match a, b with
  | NaN, _ | _, NaN => false
  | NInf, NInf => false
  | NInf, _ => true
  | _, NInf => false
  | PInf, _ => false
  | Fin _, PInf => true
  | Fin x, Fin y => negb (Qle_bool y x)
  end.

Definition cle (a b : cell) : bool :=
  match a, b with
  | NaN, _ | _, NaN => false
  | _, _ => negb (clt b a)
  end.

Fixpoint monotonic_increasing (bins : list cell) : bool :=
  match bins with
  | a :: (b :: _) as rest => cle a b && monotonic_increasing rest
  | [a] => negb (cell_eqb a NaN)
  | [] => true
  end.

Fixpoint has_duplicates (bins : list cell) : bool :=
  match bins with
  | [] => false
  | a :: rest => existsb (cell_eqb a) rest || has_duplicates rest
  end.

(** [bins.searchsorted(x, side='left')]: how many edges lie strictly below. *)
Definition searchsorted_left (bins : list cell) (x : cell) : nat :=
  length (filter (fun b => clt b x) bins).

(** [pd.cut(v, bins=bins, labels=labels)] with the default [right=True]:
    the edges must increase and be unique, there is one label per interval,
    and a value in the interval (bins[i], bins[i+1]] gets label [i]; a value
    outside every interval gets the missing category. *)
Definition cut {L : Type} (v : list Q) (bins : list cell) (labels : list L)
  : result (list (option L)) :=
  if negb (monotonic_increasing bins) then Err ValueError
  else if has_duplicates bins then Err ValueError
  else if negb (length labels =? length bins - 1)%nat then Err ValueError
  else
    Ok (map (fun x =>
               let ids := searchsorted_left bins (Fin x) in
               if (ids =? 0)%nat || (ids =? length bins)%nat then None
               else nth_error labels (ids - 1))
            v).

(** The tiers of a batch of risk scores. *)
Definition risk_levels (risk : list Q) : result (list (option risk_level)) :=
  let percentile_90 := quantile risk (9 # 10) in
  let percentile_50 := quantile risk (1 # 2) in
  cut risk [NInf; percentile_50; percentile_90; PInf]
      [LowRisk; ModerateRisk; HighRisk].

(** The tier rule in the words of the specification: Low up to the 50th
    percentile, Moderate above it and up to the 90th, High above that. *)
Definition tier_of (p50 p90 x : Q) : risk_level :=
  if Qle_bool x p50 then LowRisk
  else if Qle_bool x p90 then ModerateRisk
  else HighRisk.

(** The whole cell, given the stay probabilities the calibrated model
    predicts for the rows of [df]. *)
Definition score (prob_stay : list Q) (df : frame) : result frame :=
  df <- assign "Predicted_Prob_Stay" (Floats (map Fin prob_stay)) df ;;
  risk <- retention_risk prob_stay ;;
  df <- assign "Retention_Risk" (Floats (map Fin risk)) df ;;
  levels <- risk_levels risk ;;
  assign "Risk_Level" (Categorical levels) df.

(** ** Cell 9: export *)

(** Descending order of float values, missing values last. *)
Definition desc_before (a b : cell) : bool :=
  match a, b with
  | _, NaN => true
  | NaN, _ => false
  | _, _ => cle b a
  end.

(** The values a column is ordered by: a categorical column is ordered by
    the code of its category. *)
Definition category_code (l : option risk_level) : cell :=
  match l with
  | Some LowRisk => Fin 0
  | Some ModerateRisk => Fin 1
  | Some HighRisk => Fin 2
  | None => NaN
  end.

Definition sort_keys (key : series) : list cell :=
  match key with
  | Floats v => v
  | Categorical c => map category_code c
  end.

(** The positions of the rows in sorted order. *)
Definition sort_index (v : list cell) : list nat :=
  map fst (sort_by (fun a b => desc_before (snd a) (snd b)) (enumerate v)).

(** [df.sort_values(by=name, ascending=False)]: every column is reordered
    by the sorted positions of the key column.  The order among equal keys
    is the stable one; pandas' default sort does not promise it. *)
Definition sort_values_desc (name : string) (df : frame) : result frame :=
  key <- getitem name df ;;
  let idx := sort_index (sort_keys key) in
  Ok (map (fun c => (fst c, series_rows idx (snd c))) df).

(** The table written by [to_excel(..., index=False)]. *)
Definition export (df : frame) : result frame :=
  sort_values_desc "Retention_Risk" df.

(** The columns the scoring cell assigns, and the derived columns whose two
    sources a table has. *)
Definition score_names : list string :=
  ["Predicted_Prob_Stay"; "Retention_Risk"; "Risk_Level"].

Definition engineered_names (df : frame) : list string :=
  (if has_column "JobSatisfaction" df && has_column "WorkLifeBalance" df
   then ["Engagement_Index"] else [])
  ++ (if has_column "YearsSinceLastPromotion" df
         && has_column "YearsAtCompany" df
      then ["Promotion_Rate"] else [])
  ++ (if has_column "Doing_Overtime" df
         && has_column "Laboratory_Technician" df
      then ["Overtime_SensitiveRole"] else []).

(** ** The pipeline, cells 2 to 9 *)

Section Pipeline.

Variable fsqrt : Q -> Q.
Variable permutation : nat -> list nat.
Variable fit_resample : matrix -> series -> result (matrix * series).
Variable importances : nat -> matrix -> series -> list Q.

(** The tuned and calibrated forest: fitting it on the balanced training
    set, and the second column of its [predict_proba]. *)
Variable model : Type.
Variable fit_calibrated : matrix -> series -> result model.
Variable predict_proba_stay : model -> matrix -> result (list Q).

(** Cell 7: the metrics of the calibrated model on the test partition and
    its cross-validated scores on all rows.  It prints, binds nothing that a
    later cell reads, and raises when a fit fails. *)
Variable evaluate : model -> split_vars -> matrix -> series -> result unit.

(** [calibrated_rf.fit(X_train_sel_res, y_train_sel_res)], after the grid
    search on the same arrays. *)
Definition train (s : selected) : result model :=
  match X_train_resampled (sel s), y_train_resampled (sel s) with
  | Some X_train_sel_res, Some y_train_sel_res =>
      fit_calibrated X_train_sel_res y_train_sel_res
  | _, _ => Err NameError
  end.

Definition run (df : frame) : result frame :=
  df <- feature_engineer df ;;
  p <- prepare fsqrt df ;;
  _ <- split_and_balance permutation fit_resample (X_scaled p) (y p) ;;
  s <- select_features fsqrt permutation fit_resample importances p ;;
  calibrated_rf <- train s ;;
  _ <- evaluate calibrated_rf (sel s) (X_scaled_selected s) (y p) ;;
  prob_stay <- predict_proba_stay calibrated_rf (X_scaled_selected s) ;;
  df <- score prob_stay df ;;
  export df.

End Pipeline.

(** ** Sample tables *)

Definition floats (l : list Q) : series := Floats (map Fin l).

(** Three employees with every optional column. *)
Definition staff : frame :=
  [("EmployeeNumber", floats [1; 2; 3]);
   ("JobSatisfaction", floats [1; 4; 3]);
   ("WorkLifeBalance", floats [2; 2; 4]);
   ("YearsSinceLastPromotion", floats [1; 0; 3]);
   ("YearsAtCompany", floats [1; 5; 8]);
   ("Doing_Overtime", floats [1; 0; 1]);
   ("Laboratory_Technician", floats [1; 1; 0]);
   ("Retained", floats [1; 0; 1])].

Definition staff_engineered : frame :=
  staff ++
  [("Engagement_Index", floats [2; 8; 12]);
   ("Promotion_Rate", floats [1 / 2; 0 / 6; 3 / 9]);
   ("Overtime_SensitiveRole", floats [1; 0; 0])].

(** A table with none of the optional columns and no identifier. *)
Definition bare : frame :=
  [("Age", floats [30; 41]); ("Retained", floats [1; 0])].

(** A table whose second row has a tenure of minus one. *)
Definition odd_tenure : frame :=
  [("YearsSinceLastPromotion", floats [1; 2]);
   ("YearsAtCompany", floats [1; -1]);
   ("Retained", floats [1; 0])].

(** A table of [k] feature columns named A, B, C, ... and two rows; every
    column has variance one. *)
Definition column_name (i : nat) : string :=
  String (Ascii.ascii_of_nat (65 + i)) EmptyString.

Definition wide (k : nat) : frame :=
  map (fun i => (column_name i,
                 floats [inject_Z (Z.of_nat i); inject_Z (Z.of_nat i) + 2]))
      (seq 0 k)
  ++ [("Retained", floats [1; 0])].

(** Six standardized rows of two features, with their labels. *)
Definition six_rows : matrix :=
  [[Fin (-1); Fin 0; Fin 1; Fin (-1); Fin 0; Fin 1];
   [Fin 1; Fin 1; Fin (-1); Fin (-1); Fin 0; Fin 0]].

Definition six_labels : series := floats [1; 1; 0; 1; 1; 0].

(** ** Sample estimators

    Stand-ins for the library estimators, used to run the pipeline on the
    sample tables. *)

(** Square root to six decimal places. *)
Definition sample_sqrt (q : Q) : Q :=
  Z.sqrt (Qnum q * 10 ^ 12 / Zpos (Qden q)) # 10 ^ 6.

(** A shuffle that keeps the order. *)
Definition sample_permutation (n : nat) : list nat := seq 0 n.

(** An oversampler that finds nothing to add. *)
Definition sample_resample (X : matrix) (y : series)
  : result (matrix * series) :=
  Ok (X, y).

(** A forest that finds every column more important than the one before. *)
Definition sample_importances (round : nat) (X : matrix) (y : series)
  : list Q :=
  map (fun i => inject_Z (Z.of_nat i)) (seq 0 (n_features X)).

(** A model that predicts the stay probability (n - i) / (n + 1) for row i
    of n. *)
Definition sample_fit (X : matrix) (y : series) : result unit := Ok tt.

Definition sample_predict (m : unit) (X : matrix) : result (list Q) :=
  Ok (map (fun i => Z.of_nat (n_samples X - i) # Pos.of_succ_nat (n_samples X))
          (seq 0 (n_samples X))).

Definition sample_evaluate (m : unit) (st : split_vars) (X : matrix)
  (y : series) : result unit :=
  Ok tt.

Definition sample_run : frame -> result frame :=
  run sample_sqrt sample_permutation sample_resample sample_importances
      unit sample_fit sample_predict sample_evaluate.

(** A table without the target column. *)
Definition unlabelled : frame :=
  [("EmployeeNumber", floats [1; 2]); ("Age", floats [30; 41])].

(** ** Statistics of a finite column

    The mean and the population variance, as the textbook defines them. *)
Definition Qmean (v : list Q) : Q :=
  Qsum v / inject_Z (Z.of_nat (length v)).

Definition Qvariance (v : list Q) : Q :=
  Qmean (map (fun x => (x - Qmean v) * (x - Qmean v)) v).

(** ** Counting tiers *)

Definition risk_level_eqb (a b : risk_level) : bool :=
  match a, b with
  | LowRisk, LowRisk | ModerateRisk, ModerateRisk | HighRisk, HighRisk => true
  | _, _ => false
  end.

(** [(df["Risk_Level"] == t).sum()] *)
Definition count_level (t : risk_level) (levels : list (option risk_level))
  : nat :=
  length (filter (fun l => match l with
                           | Some u => risk_level_eqb u t
                           | None => false
                           end) levels).

(** Three risk scores. *)
Definition three_risks : list Q := [0; 1 # 2; 1].

(** A column that is absent or numeric. *)
Definition not_categorical (name : string) (df : frame) : Prop :=
  forall c, lookup name df <> Some (Categorical c).

(** A table all of whose columns have the table's number of rows, as every
    [DataFrame] has. *)
Definition rectangular (df : frame) : Prop :=
  Forall (fun c => series_length (snd c) = n_rows df) df.

(** * Properties *)

(** ** The error monad *)

Lemma bind_Ok {A B : Type} (m : result A) (k : A -> result B) (b : B) :
  bind m k = Ok b -> exists a, m = Ok a /\ k a = Ok b.
Proof.
  destruct m as [a | e |]; simpl; intro H; try discriminate.
  exists a; split; [reflexivity | exact H].
Qed.

Ltac inv_bind H :=
  let x := fresh "x" in
  let Hx := fresh "Hx" in
  apply bind_Ok in H; destruct H as (x & Hx & H).

(** ** Frames *)

Lemma has_column_lookup (name : string) (df : frame) :
  has_column name df = true <-> lookup name df <> None.
Proof.
  unfold has_column, columns.
  induction df as [| [n s] rest IH]; simpl.
  - split; [discriminate | congruence].
  - destruct (String.eqb name n); simpl.
    + split; [discriminate | reflexivity].
    + exact IH.
Qed.

Lemma has_column_false (name : string) (df : frame) :
  has_column name df = false <-> lookup name df = None.
Proof.
  destruct (has_column name df) eqn:E.
  - apply has_column_lookup in E. split; [discriminate | contradiction].
  - split; [| reflexivity]. intros _.
    destruct (lookup name df) eqn:L; [| reflexivity].
    assert (has_column name df = true) by (apply has_column_lookup; congruence).
    congruence.
Qed.

Lemma has_column_In (name : string) (df : frame) :
  has_column name df = true <-> In name (columns df).
Proof.
  unfold has_column. rewrite existsb_exists. split.
  - intros (x & Hin & Heq). apply String.eqb_eq in Heq. now subst.
  - intro Hin. exists name. split; [exact Hin | apply String.eqb_refl].
Qed.

Lemma lookup_setitem_same (name : string) (s : series) (df : frame) :
  lookup name (setitem name s df) = Some s.
Proof.
  induction df as [| [n s0] rest IH]; simpl.
  - now rewrite String.eqb_refl.
  - destruct (String.eqb name n) eqn:E; simpl; rewrite E; auto.
Qed.

Lemma lookup_setitem_other (name other : string) (s : series) (df : frame) :
  other <> name -> lookup other (setitem name s df) = lookup other df.
Proof.
  intro Hne. induction df as [| [n s0] rest IH]; simpl.
  - apply String.eqb_neq in Hne. now rewrite Hne.
  - destruct (String.eqb name n) eqn:E; simpl.
    + apply String.eqb_eq in E. subst n.
      apply String.eqb_neq in Hne. now rewrite Hne.
    + now rewrite IH.
Qed.

(** Writing the value a column already holds changes nothing. *)
Lemma setitem_same_value (name : string) (s : series) (df : frame) :
  lookup name df = Some s -> setitem name s df = df.
Proof.
  induction df as [| [n s0] rest IH]; simpl; [discriminate |].
  destruct (String.eqb name n) eqn:E.
  - intro H. injection H as ->. reflexivity.
  - intro H. now rewrite IH.
Qed.

(** An assignment keeps the columns in place and appends at most the one
    it names. *)
Lemma columns_setitem (name : string) (s : series) (df : frame) :
  columns (setitem name s df)
  = columns df ++ (if has_column name df then [] else [name]).
Proof.
  unfold has_column, columns.
  induction df as [| [n s0] rest IH]; simpl; [reflexivity |].
  destruct (String.eqb name n) eqn:E; simpl.
  - now rewrite app_nil_r.
  - now rewrite IH.
Qed.

Lemma getitem_Ok (name : string) (df : frame) (s : series) :
  getitem name df = Ok s <-> lookup name df = Some s.
Proof.
  unfold getitem. destruct (lookup name df); split; intro H;
    try discriminate; congruence.
Qed.

(** ** Feature engineering *)

Lemma Engagement_Index_derive (df : frame) :
  Engagement_Index df
  = derive "JobSatisfaction" "WorkLifeBalance" "Engagement_Index"
           series_mul df.
Proof. reflexivity. Qed.

Lemma Promotion_Rate_derive (df : frame) :
  Promotion_Rate df
  = derive "YearsSinceLastPromotion" "YearsAtCompany" "Promotion_Rate"
           promotion_formula df.
Proof.
  unfold Promotion_Rate, derive, promotion_formula.
  destruct (_ && _); [| reflexivity].
  destruct (getitem "YearsSinceLastPromotion" df); simpl; try reflexivity.
  destruct (getitem "YearsAtCompany" df) as [b | |]; simpl; try reflexivity.
  destruct (series_add_scalar b 1); reflexivity.
Qed.

Lemma Overtime_SensitiveRole_derive (df : frame) :
  Overtime_SensitiveRole df
  = derive "Doing_Overtime" "Laboratory_Technician" "Overtime_SensitiveRole"
           series_mul df.
Proof. reflexivity. Qed.

Lemma derive_Ok a b out formula df df' :
  derive a b out formula df = Ok df' -> derived a b out formula df df'.
Proof.
  unfold derive. destruct (has_column a df && has_column b df) eqn:E.
  - intro H. inv_bind H. inv_bind H. inv_bind H.
    injection H as <-.
    apply getitem_Ok in Hx, Hx0.
    now apply derived_set with (x := x) (y := x0).
  - intro H. injection H as <-. now apply derived_skip.
Qed.

Lemma derived_lookup_other a b out formula df df' name :
  derived a b out formula df df' -> name <> out ->
  lookup name df' = lookup name df.
Proof.
  intros [x y v _ _ _ | _] Hne; [| reflexivity].
  now apply lookup_setitem_other.
Qed.

(** Running a statement again on any later frame that still has the same
    sources and the derived column it wrote changes nothing. *)
Lemma derive_stable a b out formula df df' later :
  derived a b out formula df df' ->
  lookup a later = lookup a df ->
  lookup b later = lookup b df ->
  lookup out later = lookup out df' ->
  derive a b out formula later = Ok later.
Proof.
  intros [x y v Ha Hb Hf | Hskip] La Lb Lout; unfold derive.
  - assert (Ea : has_column a later = true)
      by (apply has_column_lookup; congruence).
    assert (Eb : has_column b later = true)
      by (apply has_column_lookup; congruence).
    rewrite Ea, Eb; simpl.
    unfold getitem. rewrite La, Ha, Lb, Hb; simpl. rewrite Hf; simpl.
    rewrite setitem_same_value; [reflexivity |].
    now rewrite Lout, lookup_setitem_same.
  - assert (E : has_column a later && has_column b later = false).
    { apply andb_false_iff in Hskip. apply andb_false_iff.
      destruct Hskip as [H | H]; [left | right];
        apply has_column_false; apply has_column_false in H; congruence. }
    now rewrite E.
Qed.

Lemma derived_columns a b out formula df df' :
  derived a b out formula df df' ->
  columns df' = columns df ++ (if has_column out df then [] else
                               if has_column a df && has_column b df
                               then [out] else []).
Proof.
  intros [x y v Ha Hb _ | Hskip].
  - rewrite columns_setitem.
    assert (has_column a df = true) as -> by (apply has_column_lookup; congruence).
    assert (has_column b df = true) as -> by (apply has_column_lookup; congruence).
    reflexivity.
  - rewrite Hskip. destruct (has_column out df); now rewrite app_nil_r.
Qed.

Ltac names_differ := intro; discriminate.

Lemma feature_engineer_Ok df df' :
  feature_engineer df = Ok df' ->
  exists df1 df2,
    derived "JobSatisfaction" "WorkLifeBalance" "Engagement_Index"
            series_mul df df1 /\
    derived "YearsSinceLastPromotion" "YearsAtCompany" "Promotion_Rate"
            promotion_formula df1 df2 /\
    derived "Doing_Overtime" "Laboratory_Technician" "Overtime_SensitiveRole"
            series_mul df2 df'.
Proof.
  unfold feature_engineer. intro H.
  inv_bind H. inv_bind H.
  rewrite Engagement_Index_derive in Hx.
  rewrite Promotion_Rate_derive in Hx0.
  rewrite Overtime_SensitiveRole_derive in H.
  exists x, x0. auto using derive_Ok.
Qed.

Lemma has_column_ext (name : string) (df1 df2 : frame) :
  lookup name df1 = lookup name df2 ->
  has_column name df1 = has_column name df2.
Proof.
  intro H. destruct (has_column name df2) eqn:E.
  - apply has_column_lookup. apply has_column_lookup in E. congruence.
  - apply has_column_false. apply has_column_false in E. congruence.
Qed.

Lemma derived_added a b out formula df df' :
  derived a b out formula df df' ->
  exists added,
    columns df' = columns df ++ added
    /\ (added = [] \/ (added = [out] /\ ~ In out (columns df))).
Proof.
  intro H. rewrite (derived_columns _ _ _ _ _ _ H).
  destruct (has_column out df) eqn:E.
  - exists []. auto.
  - destruct (has_column a df && has_column b df).
    + exists [out]. split; [reflexivity | right; split; [reflexivity |]].
      intro Hin. apply has_column_In in Hin. congruence.
    + exists []. auto.
Qed.

Lemma derived_formula a b out formula df df' :
  derived a b out formula df df' ->
  if has_column a df && has_column b df
  then exists x y v,
      lookup a df = Some x /\ lookup b df = Some y
      /\ formula x y = Ok v /\ lookup out df' = Some v
  else lookup out df' = lookup out df.
Proof.
  intros [x y v Ha Hb Hf | Hskip].
  - assert (has_column a df = true) as ->
        by (apply has_column_lookup; congruence).
    assert (has_column b df = true) as ->
        by (apply has_column_lookup; congruence).
    simpl. exists x, y, v. now rewrite lookup_setitem_same.
  - now rewrite Hskip.
Qed.

(** C6. The feature engineer is idempotent and adds columns only: a
    successful run can be repeated on its own output and returns it
    unchanged (every derived column is overwritten with the value it has);
    no column other than the three derived ones is changed, the input's
    columns stay in place and only derived names are appended; and each
    derived column is assigned its formula exactly when both of its source
    columns exist, and is otherwise left as it was. *)
Theorem feature_engineer_idempotent (df df' : frame) :
  feature_engineer df = Ok df' ->
  feature_engineer df' = Ok df'
  /\ (forall name, ~ In name derived_names -> lookup name df' = lookup name df)
  /\ (exists added, columns df' = columns df ++ added
                    /\ incl added derived_names
                    /\ forall n, In n added -> ~ In n (columns df))
  /\ (if has_column "JobSatisfaction" df && has_column "WorkLifeBalance" df
      then exists a b v,
          lookup "JobSatisfaction" df = Some a
          /\ lookup "WorkLifeBalance" df = Some b
          /\ series_mul a b = Ok v
          /\ lookup "Engagement_Index" df' = Some v
      else lookup "Engagement_Index" df' = lookup "Engagement_Index" df)
  /\ (if has_column "YearsSinceLastPromotion" df
         && has_column "YearsAtCompany" df
      then exists a b d v,
          lookup "YearsSinceLastPromotion" df = Some a
          /\ lookup "YearsAtCompany" df = Some b
          /\ series_add_scalar b 1 = Ok d
          /\ series_div a d = Ok v
          /\ lookup "Promotion_Rate" df' = Some v
      else lookup "Promotion_Rate" df' = lookup "Promotion_Rate" df)
  /\ (if has_column "Doing_Overtime" df
         && has_column "Laboratory_Technician" df
      then exists a b v,
          lookup "Doing_Overtime" df = Some a
          /\ lookup "Laboratory_Technician" df = Some b
          /\ series_mul a b = Ok v
          /\ lookup "Overtime_SensitiveRole" df' = Some v
      else lookup "Overtime_SensitiveRole" df'
           = lookup "Overtime_SensitiveRole" df).
Proof.
  intro H. destruct (feature_engineer_Ok _ _ H) as (df1 & df2 & H1 & H2 & H3).
  assert (L1 : forall n, n <> "Engagement_Index" -> lookup n df1 = lookup n df)
    by (intros; eapply derived_lookup_other; eauto).
  assert (L2 : forall n, n <> "Promotion_Rate" -> lookup n df2 = lookup n df1)
    by (intros; eapply derived_lookup_other; eauto).
  assert (L3 : forall n, n <> "Overtime_SensitiveRole" ->
                         lookup n df' = lookup n df2)
    by (intros; eapply derived_lookup_other; eauto).
  split; [| split; [| split; [| split; [| split]]]].
  - unfold feature_engineer.
    rewrite Engagement_Index_derive.
    rewrite (derive_stable _ _ _ _ _ _ df' H1); simpl.
    + rewrite Promotion_Rate_derive.
      rewrite (derive_stable _ _ _ _ _ _ df' H2); simpl.
      * rewrite Overtime_SensitiveRole_derive.
        apply (derive_stable _ _ _ _ _ _ df' H3);
          try reflexivity; apply L3; names_differ.
      * rewrite L3, L2 by names_differ. reflexivity.
      * rewrite L3, L2 by names_differ. reflexivity.
      * rewrite L3 by names_differ. reflexivity.
    + rewrite L3, L2, L1 by names_differ. reflexivity.
    + rewrite L3, L2, L1 by names_differ. reflexivity.
    + rewrite L3, L2 by names_differ. reflexivity.
  - intros name Hn. unfold derived_names in Hn. simpl in Hn.
    rewrite L3, L2, L1; auto; intro E; apply Hn; subst; auto.
  - destruct (derived_added _ _ _ _ _ _ H1) as (a1 & C1 & D1).
    destruct (derived_added _ _ _ _ _ _ H2) as (a2 & C2 & D2).
    destruct (derived_added _ _ _ _ _ _ H3) as (a3 & C3 & D3).
    exists (a1 ++ a2 ++ a3). split; [| split].
    + rewrite C3, C2, C1, <- !app_assoc. reflexivity.
    + unfold derived_names. intros n Hn.
      rewrite !in_app_iff in Hn.
      destruct Hn as [Hn | [Hn | Hn]];
        [destruct D1 as [-> | [-> _]] | destruct D2 as [-> | [-> _]]
         | destruct D3 as [-> | [-> _]]];
        simpl in Hn; try contradiction;
        destruct Hn as [<- | []]; simpl; auto.
    + intros n Hn Hdf. rewrite !in_app_iff in Hn.
      destruct Hn as [Hn | [Hn | Hn]].
      * destruct D1 as [-> | [-> D1]]; [contradiction |].
        destruct Hn as [<- | []]. contradiction.
      * destruct D2 as [-> | [-> D2]]; [contradiction |].
        destruct Hn as [<- | []]. apply D2. rewrite C1, in_app_iff. auto.
      * destruct D3 as [-> | [-> D3]]; [contradiction |].
        destruct Hn as [<- | []]. apply D3.
        rewrite C2, C1, !in_app_iff. auto.
  - pose proof (derived_formula _ _ _ _ _ _ H1) as F.
    destruct (has_column "JobSatisfaction" df && has_column "WorkLifeBalance" df).
    + destruct F as (a & b & v & Ha & Hb & Hf & Hv).
      exists a, b, v. rewrite L3, L2 by names_differ. auto.
    + rewrite L3, L2 by names_differ. exact F.
  - pose proof (derived_formula _ _ _ _ _ _ H2) as F.
    rewrite (has_column_ext "YearsSinceLastPromotion" df1 df) in F
      by (apply L1; names_differ).
    rewrite (has_column_ext "YearsAtCompany" df1 df) in F
      by (apply L1; names_differ).
    destruct (has_column "YearsSinceLastPromotion" df
              && has_column "YearsAtCompany" df).
    + destruct F as (a & b & v & Ha & Hb & Hf & Hv).
      unfold promotion_formula in Hf. inv_bind Hf.
      exists a, b, x, v. rewrite L3 by names_differ.
      rewrite <- (L1 "YearsSinceLastPromotion"), <- (L1 "YearsAtCompany")
        by names_differ. auto.
    + rewrite L3, F, L1 by names_differ. reflexivity.
  - pose proof (derived_formula _ _ _ _ _ _ H3) as F.
    rewrite (has_column_ext "Doing_Overtime" df2 df) in F
      by (rewrite L2, L1 by names_differ; reflexivity).
    rewrite (has_column_ext "Laboratory_Technician" df2 df) in F
      by (rewrite L2, L1 by names_differ; reflexivity).
    destruct (has_column "Doing_Overtime" df
              && has_column "Laboratory_Technician" df).
    + destruct F as (a & b & v & Ha & Hb & Hf & Hv).
      exists a, b, v.
      rewrite L2, L1 in Ha, Hb by names_differ. auto.
    + rewrite F, L2, L1 by names_differ. reflexivity.
Qed.

Lemma feature_engineer_idempotent_witness :
  feature_engineer staff = Ok staff_engineered
  /\ feature_engineer staff_engineered = Ok staff_engineered.
Proof.
  split; [reflexivity |].
  exact (proj1 (feature_engineer_idempotent staff staff_engineered eq_refl)).
Defined.

Lemma lookup_drop (names : list string) (mode : errors_mode) (df X : frame)
  (name : string) :
  drop names mode df = Ok X ->
  lookup name X
  = if existsb (String.eqb name) names then None else lookup name df.
Proof.
  intro H.
  assert (E : X = filter (fun c => negb (existsb (String.eqb (fst c)) names))
                         df).
  { unfold drop in H. destruct mode; [| congruence].
    destruct (forallb _ names); congruence. }
  subst X. clear H.
  induction df as [| [n s] rest IH]; simpl.
  - now destruct (existsb _ names).
  - destruct (existsb (String.eqb n) names) eqn:En; simpl.
    + rewrite IH. destruct (String.eqb name n) eqn:E; [| reflexivity].
      apply String.eqb_eq in E. subst n. now rewrite En.
    + destruct (String.eqb name n) eqn:E; [| exact IH].
      apply String.eqb_eq in E. subst n. now rewrite En.
Qed.

(** C8. On a table with none of the six optional source columns the feature
    engineer succeeds and returns the table as it is, so no engineered
    column is added; and dropping the target and the identifier with
    [errors='ignore'] succeeds whether or not the identifier is a column,
    removing exactly those two names. *)
Theorem no_optional_sources_no_engineering (df : frame) :
  (forall n, In n optional_sources -> has_column n df = false) ->
  feature_engineer df = Ok df
  /\ exists X, drop ["Retained"; "EmployeeNumber"] Ignore df = Ok X
               /\ forall name,
                   lookup name X
                   = if existsb (String.eqb name) ["Retained"; "EmployeeNumber"]
                     then None else lookup name df.
Proof.
  intro H. split.
  - unfold feature_engineer, Engagement_Index, Promotion_Rate,
      Overtime_SensitiveRole.
    rewrite (H "JobSatisfaction") by (simpl; auto); simpl.
    rewrite (H "YearsSinceLastPromotion") by (simpl; auto); simpl.
    rewrite (H "Doing_Overtime") by (simpl; auto 6); simpl.
    reflexivity.
  - eexists. split; [reflexivity |].
    intro name. now apply lookup_drop with (mode := Ignore).
Qed.

Lemma no_optional_sources_no_engineering_witness :
  feature_engineer bare = Ok bare
  /\ exists X, drop ["Retained"; "EmployeeNumber"] Ignore bare = Ok X
               /\ forall name,
                   lookup name X
                   = if existsb (String.eqb name) ["Retained"; "EmployeeNumber"]
                     then None else lookup name bare.
Proof.
  apply (no_optional_sources_no_engineering bare).
  intros n Hn. simpl in Hn.
  repeat (destruct Hn as [<- | Hn]; [reflexivity |]). contradiction.
Defined.

(** Without [errors='ignore'] the same call raises on a table that has no
    identifier column. *)
Lemma drop_raise_absent_identifier :
  drop ["Retained"; "EmployeeNumber"] Raise bare = Err KeyError.
Proof. reflexivity. Qed.

(** ** The promotion rate and its divisor *)

Lemma zero_cell_plus_one (c : cell) :
  zero_cell (cadd c (Fin 1)) = minus_one_cell c.
Proof.
  destruct c as [q | | |]; simpl; try reflexivity.
  destruct (Qeq_bool (q + 1) 0) eqn:E1, (Qeq_bool q (-1)) eqn:E2;
    try reflexivity.
  - apply Qeq_bool_iff in E1. apply Qeq_bool_neq in E2.
    exfalso. apply E2. lra.
  - apply Qeq_bool_iff in E2. apply Qeq_bool_neq in E1.
    exfalso. apply E1. lra.
Qed.

(** C9, as stated, fails: a table with both columns whose tenure is minus
    one makes the divisor zero. *)
Lemma Promotion_Rate_zero_divisor :
  ~ (forall df d,
        has_column "YearsSinceLastPromotion" df = true ->
        has_column "YearsAtCompany" df = true ->
        promotion_denominator df = Ok d ->
        divides_by_zero d = false).
Proof.
  intro H.
  specialize (H odd_tenure (Floats [Fin 2; Fin 0]) eq_refl eq_refl eq_refl).
  discriminate H.
Qed.

(** What the rate is at that row: an infinity. *)
Lemma Promotion_Rate_odd_tenure :
  Promotion_Rate odd_tenure
  = Ok (odd_tenure ++ [("Promotion_Rate", Floats [Fin (1 # 2); PInf])]).
Proof. reflexivity. Qed.

(** C9, amended. When no tenure in [YearsAtCompany] equals minus one (as for
    every non-negative tenure) the divisor [YearsAtCompany + 1] has no zero
    cell, and the promotion rate is the cell-wise quotient by it. *)
Theorem Promotion_Rate_no_zero_divisor (df : frame) (a b : list cell) :
  lookup "YearsSinceLastPromotion" df = Some (Floats a) ->
  lookup "YearsAtCompany" df = Some (Floats b) ->
  (forall c, In c b -> minus_one_cell c = false) ->
  exists d,
    promotion_denominator df = Ok (Floats d)
    /\ d = map (fun x => cadd x (Fin 1)) b
    /\ divides_by_zero (Floats d) = false
    /\ Promotion_Rate df
       = Ok (setitem "Promotion_Rate" (Floats (map2 cdiv a d)) df).
Proof.
  intros Ha Hb Hne.
  exists (map (fun x => cadd x (Fin 1)) b).
  split; [| split; [reflexivity | split]].
  - unfold promotion_denominator, getitem. now rewrite Hb.
  - simpl. apply not_true_is_false. intro E.
    apply existsb_exists in E. destruct E as (c & Hin & Hz).
    apply in_map_iff in Hin. destruct Hin as (c0 & <- & Hin).
    rewrite zero_cell_plus_one, (Hne c0 Hin) in Hz. discriminate.
  - unfold Promotion_Rate, getitem.
    assert (has_column "YearsSinceLastPromotion" df = true) as ->
        by (apply has_column_lookup; congruence).
    assert (has_column "YearsAtCompany" df = true) as ->
        by (apply has_column_lookup; congruence).
    rewrite Ha, Hb. reflexivity.
Qed.

Lemma Promotion_Rate_no_zero_divisor_witness :
  exists d,
    promotion_denominator staff = Ok (Floats d)
    /\ d = map (fun x => cadd x (Fin 1)) [Fin 1; Fin 5; Fin 8]
    /\ divides_by_zero (Floats d) = false
    /\ Promotion_Rate staff
       = Ok (setitem "Promotion_Rate"
                     (Floats (map2 cdiv [Fin 1; Fin 0; Fin 3] d)) staff).
Proof.
  apply (Promotion_Rate_no_zero_divisor staff
           [Fin 1; Fin 0; Fin 3] [Fin 1; Fin 5; Fin 8]);
    [reflexivity | reflexivity |].
  intros c Hc. simpl in Hc.
  repeat (destruct Hc as [<- | Hc]; [reflexivity |]). contradiction.
Defined.

(** ** Minimum and maximum of a batch *)

Lemma Qminimum_In (x : Q) (l : list Q) : In (Qminimum x l) (x :: l).
Proof.
  induction l as [| y l IH]; simpl; [auto |].
  fold (Qminimum x l).
  unfold Qmin, GenericMinMax.gmin.
  destruct (y ?= Qminimum x l); auto.
  all: destruct IH as [IH | IH]; [left; exact IH | right; right; exact IH].
Qed.

Lemma Qmaximum_In (x : Q) (l : list Q) : In (Qmaximum x l) (x :: l).
Proof.
  induction l as [| y l IH]; simpl; [auto |].
  fold (Qmaximum x l).
  unfold Qmax, GenericMinMax.gmax.
  destruct (y ?= Qmaximum x l); auto.
  all: destruct IH as [IH | IH]; [left; exact IH | right; right; exact IH].
Qed.

Lemma Qminimum_le (x : Q) (l : list Q) (v : Q) :
  In v (x :: l) -> Qminimum x l <= v.
Proof.
  induction l as [| y l IH]; simpl.
  - intros [-> | []]. apply Qle_refl.
  - fold (Qminimum x l). intros [-> | [-> | H]].
    + eapply Qle_trans; [apply Q.le_min_r | apply IH; simpl; auto].
    + apply Q.le_min_l.
    + eapply Qle_trans; [apply Q.le_min_r | apply IH; simpl; auto].
Qed.

Lemma Qmaximum_ge (x : Q) (l : list Q) (v : Q) :
  In v (x :: l) -> v <= Qmaximum x l.
Proof.
  induction l as [| y l IH]; simpl.
  - intros [-> | []]. apply Qle_refl.
  - fold (Qmaximum x l). intros [-> | [-> | H]].
    + eapply Qle_trans; [apply IH; simpl; auto | apply Q.le_max_r].
    + apply Q.le_max_l.
    + eapply Qle_trans; [apply IH; simpl; auto | apply Q.le_max_r].
Qed.

(** ** The risk score *)

Lemma retention_risk_Ok (p : Q) (ps : list Q) :
  exists s,
    minmax_fit (p :: ps) = Ok s
    /\ data_min_ s = Qminimum p ps
    /\ data_max_ s = Qmaximum p ps
    /\ retention_risk (p :: ps) = Ok (map (risk_of s) (p :: ps)).
Proof.
  eexists. split; [reflexivity |]. split; [reflexivity |].
  split; [reflexivity |].
  unfold retention_risk, minmax_fit_transform, minmax_fit, minmax_transform.
  simpl bind. rewrite map_map. reflexivity.
Qed.

Lemma risk_of_fit (p : Q) (ps : list Q) (s : MinMaxScaler) (x : Q) :
  minmax_fit (p :: ps) = Ok s ->
  risk_of s x
  == 1 - (x - Qminimum p ps)
         / handle_zeros_in_scale (Qmaximum p ps - Qminimum p ps).
Proof.
  intro H. injection H as <-. unfold risk_of; simpl.
  unfold Qdiv. ring.
Qed.

Lemma handle_zeros_positive (lo hi : Q) :
  lo <= hi -> 0 < handle_zeros_in_scale (hi - lo).
Proof.
  intro H. unfold handle_zeros_in_scale.
  destruct (Qeq_bool (hi - lo) 0) eqn:E; [reflexivity |].
  apply Qeq_bool_neq in E.
  destruct (Qlt_le_dec 0 (hi - lo)) as [L | L]; [exact L |].
  exfalso. apply E. lra.
Qed.

Lemma batch_bounds (p : Q) (ps : list Q) (x : Q) :
  In x (p :: ps) -> Qminimum p ps <= x <= Qmaximum p ps.
Proof.
  intro Hx. split; [now apply Qminimum_le | now apply Qmaximum_ge].
Qed.

(** Every risk lies between zero and one. *)
Lemma risk_of_range (p : Q) (ps : list Q) (s : MinMaxScaler) (x : Q) :
  minmax_fit (p :: ps) = Ok s -> In x (p :: ps) -> 0 <= risk_of s x <= 1.
Proof.
  intros Hfit Hx. rewrite (risk_of_fit p ps s x Hfit).
  set (lo := Qminimum p ps). set (hi := Qmaximum p ps).
  destruct (batch_bounds p ps x Hx) as [H1 H2]. fold lo hi in H1, H2.
  assert (Hpos : 0 < handle_zeros_in_scale (hi - lo))
    by (apply handle_zeros_positive; lra).
  assert ((x - lo) / handle_zeros_in_scale (hi - lo) <= 1).
  { apply Qle_shift_div_r; [exact Hpos |].
    unfold handle_zeros_in_scale.
    destruct (Qeq_bool (hi - lo) 0) eqn:E; [| lra].
    apply Qeq_bool_iff in E. lra. }
  assert (0 <= (x - lo) / handle_zeros_in_scale (hi - lo))
    by (apply Qle_shift_div_l; [exact Hpos | lra]).
  lra.
Qed.

Lemma retention_risk_range (prob_stay risk : list Q) :
  retention_risk prob_stay = Ok risk ->
  length risk = length prob_stay /\ Forall (fun r => 0 <= r <= 1) risk.
Proof.
  destruct prob_stay as [| p ps]; [discriminate |].
  destruct (retention_risk_Ok p ps) as (s & Hfit & _ & _ & Hrisk).
  rewrite Hrisk. intro H.
  assert (E : risk = map (risk_of s) (p :: ps)) by congruence.
  rewrite E. clear H E.
  split; [apply length_map |].
  apply Forall_forall. intros r Hr. apply in_map_iff in Hr.
  destruct Hr as (x & <- & Hx). now apply risk_of_range with p ps.
Qed.


(** An empty batch is not scored: the scaler refuses to fit. *)
Lemma retention_risk_empty : retention_risk [] = Err ValueError.
Proof. reflexivity. Qed.

(** ** Tiers *)

Lemma quantile_nonempty (x : Q) (v : list Q) (q : Q) :
  exists a, quantile (x :: v) q = Fin a.
Proof. eexists. reflexivity. Qed.

(** With finite percentiles the cut succeeds exactly when the 50th lies
    strictly below the 90th, and then it is the tier rule. *)
Lemma cut_percentiles (risk : list Q) (a b : Q) :
  cut risk [NInf; Fin a; Fin b; PInf] [LowRisk; ModerateRisk; HighRisk]
  = if Qle_bool a b && negb (Qeq_bool a b)
    then Ok (map (fun x => Some (tier_of a b x)) risk)
    else Err ValueError.
Proof.
  unfold cut. simpl monotonic_increasing. simpl has_duplicates.
  unfold cle, clt. rewrite !negb_involutive, !andb_true_r, !orb_false_r.
  simpl andb.
  destruct (Qle_bool a b) eqn:Hle; simpl; [| reflexivity].
  destruct (Qeq_bool a b) eqn:Heq; simpl; [reflexivity |].
  f_equal. apply map_ext. intro x.
  unfold searchsorted_left, tier_of. simpl.
  apply Qle_bool_iff in Hle. apply Qeq_bool_neq in Heq.
  destruct (Qle_bool x a) eqn:Ha, (Qle_bool x b) eqn:Hb; simpl;
    try reflexivity.
  apply Qle_bool_iff in Ha.
  assert (Qle_bool x b = true) by (apply Qle_bool_iff; lra).
  congruence.
Qed.

Lemma risk_levels_Ok (risk : list Q) (levels : list (option risk_level)) :
  risk_levels risk = Ok levels ->
  exists a b,
    quantile risk (1 # 2) = Fin a /\ quantile risk (9 # 10) = Fin b
    /\ a < b
    /\ levels = map (fun x => Some (tier_of a b x)) risk.
Proof.
  unfold risk_levels. destruct risk as [| x v]; [discriminate |].
  destruct (quantile_nonempty x v (1 # 2)) as (a & Ea).
  destruct (quantile_nonempty x v (9 # 10)) as (b & Eb).
  rewrite Ea, Eb, cut_percentiles.
  destruct (Qle_bool a b) eqn:Hle; simpl; [| discriminate].
  destruct (Qeq_bool a b) eqn:Heq; simpl; [discriminate |].
  intro H. injection H as <-. exists a, b.
  apply Qle_bool_iff in Hle. apply Qeq_bool_neq in Heq.
  repeat split; auto.
  destruct (Qlt_le_dec a b) as [L | L]; [exact L |].
  exfalso. apply Heq. lra.
Qed.

Lemma tier_of_spec (a b x : Q) :
  a < b ->
  (tier_of a b x = LowRisk <-> x <= a)
  /\ (tier_of a b x = ModerateRisk <-> a < x <= b)
  /\ (tier_of a b x = HighRisk <-> b < x).
Proof.
  intro Hab. unfold tier_of.
  destruct (Qle_bool x a) eqn:Ha.
  - apply Qle_bool_iff in Ha.
    repeat split; try discriminate; auto; intro; lra.
  - assert (Ha' : a < x).
    { destruct (Qlt_le_dec a x) as [L | L]; [exact L |].
      apply Qle_bool_iff in L. congruence. }
    destruct (Qle_bool x b) eqn:Hb.
    + apply Qle_bool_iff in Hb.
      repeat split; try discriminate; auto; intro; lra.
    + assert (Hb' : b < x).
      { destruct (Qlt_le_dec b x) as [L | L]; [exact L |].
        apply Qle_bool_iff in L. congruence. }
      repeat split; try discriminate; auto; intro; lra.
Qed.

(** C2, as stated, fails: the two-row batch with equal probabilities is
    scored, and no tier is assigned to its rows. *)
Lemma risk_levels_not_total :
  ~ (forall prob_stay risk,
        retention_risk prob_stay = Ok risk ->
        exists levels, risk_levels risk = Ok levels).
Proof.
  intro H.
  destruct (H [1 # 2; 1 # 2] _ eq_refl) as (levels & E).
  discriminate E.
Qed.

(** C2, amended. For every batch of risk scores whose 50th percentile lies
    strictly below its 90th, tiering succeeds and gives every row exactly
    one tier by the closed-upper-bound rule: Low when the risk is at most
    the 50th percentile, Moderate when it is above it and at most the 90th,
    High when it is above the 90th. *)
Theorem risk_levels_partition (risk : list Q) (p50 p90 : Q) :
  quantile risk (1 # 2) = Fin p50 ->
  quantile risk (9 # 10) = Fin p90 ->
  p50 < p90 ->
  exists levels,
    risk_levels risk = Ok levels
    /\ length levels = length risk
    /\ forall i x, nth_error risk i = Some x ->
         exists t,
           nth_error levels i = Some (Some t)
           /\ t = tier_of p50 p90 x
           /\ (t = LowRisk <-> x <= p50)
           /\ (t = ModerateRisk <-> p50 < x <= p90)
           /\ (t = HighRisk <-> p90 < x).
Proof.
  intros E50 E90 Hlt.
  exists (map (fun x => Some (tier_of p50 p90 x)) risk).
  split; [| split].
  - unfold risk_levels. rewrite E50, E90, cut_percentiles.
    assert (Qle_bool p50 p90 = true) as -> by (apply Qle_bool_iff; lra).
    destruct (Qeq_bool p50 p90) eqn:E; [| reflexivity].
    apply Qeq_bool_iff in E. lra.
  - apply length_map.
  - intros i x Hx. exists (tier_of p50 p90 x).
    split; [| split; [reflexivity | now apply tier_of_spec]].
    rewrite nth_error_map, Hx. reflexivity.
Qed.

Lemma risk_levels_partition_witness :
  exists levels,
    risk_levels [0; 1 # 2; 1] = Ok levels
    /\ length levels = length [0; 1 # 2; 1]
    /\ forall i x, nth_error [0; 1 # 2; 1] i = Some x ->
         exists t,
           nth_error levels i = Some (Some t)
           /\ t = tier_of (4 # 8) (36 # 40) x
           /\ (t = LowRisk <-> x <= 4 # 8)
           /\ (t = ModerateRisk <-> 4 # 8 < x <= 36 # 40)
           /\ (t = HighRisk <-> 36 # 40 < x).
Proof.
  apply (risk_levels_partition [0; 1 # 2; 1] (4 # 8) (36 # 40));
    reflexivity.
Defined.

Lemma assign_cases (name : string) (s : series) (df : frame) :
  assign name s df = Ok (setitem name s df)
  \/ assign name s df = Err ValueError.
Proof. unfold assign. destruct (_ =? _)%nat; auto. Qed.

(** ** Batches of equal probabilities *)

Lemma Qminimum_repeat (p : Q) (n : nat) : Qminimum p (repeat p n) = p.
Proof.
  induction n as [| n IH]; simpl; [reflexivity |].
  fold (Qminimum p (repeat p n)). rewrite IH.
  unfold Qmin, GenericMinMax.gmin. now destruct (p ?= p).
Qed.

Lemma sort_by_repeat (r : Q) (n : nat) :
  sort_by Qle_bool (repeat r n) = repeat r n.
Proof.
  induction n as [| n IH]; simpl; [reflexivity |].
  rewrite IH. destruct n; simpl; [reflexivity |].
  assert (Qle_bool r r = true) as -> by (apply Qle_bool_iff, Qle_refl).
  reflexivity.
Qed.

Lemma nth_repeat_lt (r d : Q) (n i : nat) :
  (i < n)%nat -> nth i (repeat r n) d = r.
Proof.
  revert i. induction n as [| n IH]; intros i Hi; [lia |].
  destruct i; simpl; [reflexivity | apply IH; lia].
Qed.

(** Every quantile of a constant batch is its one value. *)
Lemma quantile_repeat (r : Q) (n : nat) (q : Q) :
  0 <= q <= 1 ->
  exists v, quantile (repeat r (S n)) q = Fin v /\ v == r.
Proof.
  intros [Hq0 Hq1].
  unfold quantile. change (repeat r (S n)) with (r :: repeat r n) at 1.
  cbv iota beta.
  rewrite sort_by_repeat, repeat_length.
  replace (S n - 1)%nat with n by lia.
  set (h := inject_Z (Z.of_nat n) * q).
  assert (Hn : 0 <= inject_Z (Z.of_nat n))
    by (change 0 with (inject_Z 0); rewrite <- Zle_Qle; lia).
  assert (Hh0 : 0 <= h) by (unfold h; apply Qmult_le_0_compat; assumption).
  assert (Hh1 : h <= inject_Z (Z.of_nat n)) by (unfold h; nra).
  assert (Hf0 : (0 <= Qfloor h)%Z).
  { change 0%Z with (Qfloor 0). now apply Qfloor_resp_le. }
  assert (Hf1 : (Qfloor h <= Z.of_nat n)%Z).
  { rewrite <- (Qfloor_Z (Z.of_nat n)). now apply Qfloor_resp_le. }
  eexists. split; [reflexivity |].
  rewrite !nth_repeat_lt by lia. ring.
Qed.

(** C10. Tiering succeeds only when the batch has finite 50th and 90th
    percentiles with the 50th strictly below the 90th; and on every batch
    of one or more rows that all have the same predicted stay probability
    the risk is computed, its two percentiles coincide, and tiering (hence
    the scoring cell, on any table) raises [ValueError] instead of assigning
    tiers. *)
Theorem risk_levels_constant_batch_raises :
  (forall risk levels,
      risk_levels risk = Ok levels ->
      exists p50 p90,
        quantile risk (1 # 2) = Fin p50 /\ quantile risk (9 # 10) = Fin p90
        /\ p50 < p90)
  /\ (forall (p : Q) (n : nat),
         exists risk p50 p90,
           retention_risk (repeat p (S n)) = Ok risk
           /\ quantile risk (1 # 2) = Fin p50
           /\ quantile risk (9 # 10) = Fin p90
           /\ p50 == p90
           /\ risk_levels risk = Err ValueError
           /\ forall df, score (repeat p (S n)) df = Err ValueError).
Proof.
  split.
  - intros risk levels H.
    destruct (risk_levels_Ok risk levels H) as (a & b & Ea & Eb & Hlt & _).
    exists a, b. auto.
  - intros p n.
    destruct (retention_risk_Ok p (repeat p n)) as (s & Hfit & _ & _ & Hrisk).
    change (p :: repeat p n) with (repeat p (S n)) in Hrisk.
    rewrite map_repeat in Hrisk.
    set (r := risk_of s p) in Hrisk.
    destruct (quantile_repeat r n (1 # 2)) as (a & Ea & Ha);
      [split; discriminate |].
    destruct (quantile_repeat r n (9 # 10)) as (b & Eb & Hb);
      [split; discriminate |].
    assert (Hlevels : risk_levels (repeat r (S n)) = Err ValueError).
    { unfold risk_levels. rewrite Ea, Eb, cut_percentiles.
      assert (Qeq_bool a b = true) as ->
          by (apply Qeq_bool_iff; rewrite Ha, Hb; reflexivity).
      now rewrite andb_false_r. }
    exists (repeat r (S n)), a, b.
    repeat split; auto.
    + rewrite Ha, Hb. reflexivity.
    + intro df. unfold score. rewrite Hrisk.
      destruct (assign_cases "Predicted_Prob_Stay"
                  (Floats (map Fin (repeat p (S n)))) df) as [-> | ->];
        [| reflexivity].
      cbn [bind].
      match goal with
      | |- context [assign ?c ?v ?d] =>
          destruct (assign_cases c v d) as [-> | ->]; [| reflexivity]
      end.
      cbn [bind]. rewrite Hlevels. reflexivity.
Qed.

(** ** Sorting *)

Section Sorting.

Context {A : Type}.
Variable le : A -> A -> bool.

Lemma insert_by_perm (x : A) (l : list A) :
  Permutation (insert_by le x l) (x :: l).
Proof.
  induction l as [| y t IH]; simpl; [reflexivity |].
  destruct (le x y); [reflexivity |].
  rewrite IH. apply perm_swap.
Qed.

Lemma sort_by_perm (l : list A) : Permutation (sort_by le l) l.
Proof.
  induction l as [| x t IH]; simpl; [reflexivity |].
  rewrite insert_by_perm. now apply perm_skip.
Qed.

(** With a total order the result is sorted. *)
Hypothesis le_total : forall a b, le a b = true \/ le b a = true.

Lemma insert_by_sorted (x : A) (l : list A) :
  Sorted (fun a b => le a b = true) l ->
  Sorted (fun a b => le a b = true) (insert_by le x l).
Proof.
  induction l as [| y t IH]; simpl; intro Hs.
  - constructor; constructor.
  - destruct (le x y) eqn:E.
    + constructor; [exact Hs | constructor; exact E].
    + apply Sorted_inv in Hs. destruct Hs as [Hs Hhd].
      constructor; [now apply IH |].
      destruct t as [| z t']; simpl.
      * constructor. destruct (le_total x y); congruence.
      * destruct (le x z).
        -- constructor. destruct (le_total x y); congruence.
        -- constructor. now inversion Hhd.
Qed.

Lemma sort_by_sorted (l : list A) :
  Sorted (fun a b => le a b = true) (sort_by le l).
Proof.
  induction l as [| x t IH]; simpl; [constructor |].
  now apply insert_by_sorted.
Qed.

End Sorting.

Lemma map_fst_combine {A B : Type} (l1 : list A) (l2 : list B) :
  length l1 = length l2 -> map fst (combine l1 l2) = l1.
Proof.
  revert l2. induction l1 as [| a l1 IH]; intros [| b l2] H;
    simpl in *; try reflexivity; try discriminate.
  f_equal. apply IH. lia.
Qed.

Lemma map_snd_combine {A B : Type} (l1 : list A) (l2 : list B) :
  length l1 = length l2 -> map snd (combine l1 l2) = l2.
Proof.
  revert l2. induction l1 as [| a l1 IH]; intros [| b l2] H;
    simpl in *; try reflexivity; try discriminate.
  f_equal. apply IH. lia.
Qed.

Lemma map_fst_enumerate {A : Type} (l : list A) :
  map fst (enumerate l) = seq 0 (length l).
Proof. unfold enumerate. apply map_fst_combine. now rewrite length_seq. Qed.

(** [argsort] returns every position once. *)
Lemma argsort_perm (v : list Q) : Permutation (argsort v) (seq 0 (length v)).
Proof.
  unfold argsort. rewrite <- map_fst_enumerate.
  apply Permutation_map, sort_by_perm.
Qed.

(** ** Recursive feature elimination *)

Lemma count_true_repeat (n : nat) : count_true (repeat true n) = n.
Proof.
  unfold count_true. induction n as [| n IH]; simpl; [reflexivity |].
  now rewrite IH.
Qed.

Lemma length_select_mask {A : Type} (mask : list bool) (xs : list A) :
  length mask = length xs -> length (select mask xs) = count_true mask.
Proof.
  unfold count_true. revert xs.
  induction mask as [| b mask IH]; intros [| x xs] H; simpl in *;
    try reflexivity; try discriminate.
  destruct b; simpl; rewrite IH by lia; reflexivity.
Qed.

Lemma select_seq_true (mask : list bool) (k f : nat) :
  In f (select mask (seq k (length mask))) ->
  (k <= f)%nat /\ nth (f - k) mask false = true.
Proof.
  revert k. induction mask as [| b mask IH]; intros k H; simpl in H;
    [contradiction |].
  destruct b.
  - destruct H as [<- | H].
    + split; [lia |]. now rewrite Nat.sub_diag.
    + apply IH in H. destruct H as [H1 H2]. split; [lia |].
      replace (f - k)%nat with (S (f - S k)) by lia. exact H2.
  - apply IH in H. destruct H as [H1 H2]. split; [lia |].
    replace (f - k)%nat with (S (f - S k)) by lia. exact H2.
Qed.

Lemma features_of_true (support : list bool) (f : nat) :
  In f (features_of support) -> nth f support false = true.
Proof.
  intro H. apply select_seq_true in H. now rewrite Nat.sub_0_r in H.
Qed.

Lemma length_features_of (support : list bool) :
  length (features_of support) = count_true support.
Proof.
  unfold features_of. apply length_select_mask. now rewrite length_seq.
Qed.

Lemma length_set_false (f : nat) (support : list bool) :
  length (set_false f support) = length support.
Proof.
  revert f. induction support as [| b t IH]; intros [| f]; simpl; auto.
Qed.

(** Clearing a position that is set removes exactly one column. *)
Lemma count_true_set_false (f : nat) (support : list bool) :
  nth f support false = true ->
  S (count_true (set_false f support)) = count_true support.
Proof.
  unfold count_true. revert f.
  induction support as [| b t IH]; intros [| f] H; simpl in *;
    try discriminate.
  - subst b. reflexivity.
  - destruct b; simpl; rewrite <- (IH f H); reflexivity.
Qed.

Lemma index_all_in_range (features ranks : list nat) :
  Forall (fun r => (r < length features)%nat) ranks ->
  index_all features ranks = Ok (map (fun r => nth r features 0%nat) ranks).
Proof.
  induction 1 as [| r rest Hr _ IH]; simpl; [reflexivity |].
  destruct (nth_error features r) as [f |] eqn:E.
  - rewrite IH. simpl. f_equal. f_equal.
    symmetry. now apply nth_error_nth.
  - apply nth_error_None in E. lia.
Qed.

Section FeatureSelectionFacts.

Variable importances : nat -> matrix -> series -> list Q.

(** A fitted forest reports one importance per column it was fitted on. *)
Hypothesis importances_shape :
  forall round Xs y, length (importances round Xs y) = n_features Xs.

(** One round of the loop. *)
Lemma rfe_loop_S (fuel round : nat) (X : matrix) (y : series)
  (support : list bool) :
  rfe_loop importances (S fuel) round X y support
  = if (count_true support <=? n_features_to_select)%nat then Ok support
    else
      ranked <- index_all (features_of support)
                  (argsort (importances round (select support X) y)) ;;
      rfe_loop importances fuel (S round) X y
        (fold_left (fun s f => set_false f s)
           (firstn (Nat.min step (count_true support - n_features_to_select))
                   ranked)
           support).
Proof. reflexivity. Qed.

Lemma rfe_loop_count (X : matrix) (y : series) (fuel : nat) :
  forall (round : nat) (support : list bool),
    length support = n_features X ->
    (count_true support <= fuel + n_features_to_select)%nat ->
    exists mask,
      rfe_loop importances fuel round X y support = Ok mask
      /\ length mask = length support
      /\ count_true mask
         = Nat.min (count_true support) n_features_to_select.
Proof.
  induction fuel as [| fuel IH]; intros round support Hlen Hfuel.
  - exists support. simpl.
    assert ((count_true support <=? n_features_to_select)%nat = true) as ->
        by (apply Nat.leb_le; lia).
    repeat split. lia.
  - rewrite rfe_loop_S.
    destruct (count_true support <=? n_features_to_select)%nat eqn:E.
    + apply Nat.leb_le in E. exists support. repeat split. lia.
    + apply Nat.leb_gt in E.
      set (imp := importances round (select support X) y).
      assert (Himp : length imp = count_true support).
      { unfold imp. rewrite importances_shape. unfold n_features.
        apply length_select_mask. exact Hlen. }
      pose proof (argsort_perm imp) as Hperm. rewrite Himp in Hperm.
      assert (Hrange : Forall (fun r => (r < length (features_of support))%nat)
                              (argsort imp)).
      { rewrite length_features_of. apply Forall_forall. intros r Hr.
        apply (Permutation_in _ Hperm) in Hr. apply in_seq in Hr. lia. }
      rewrite (index_all_in_range _ _ Hrange). cbn [bind].
      replace (Nat.min step (count_true support - n_features_to_select))
        with 1%nat by (unfold step; lia).
      destruct (argsort imp) as [| r0 rest] eqn:Eranks.
      { apply Permutation_length in Hperm. rewrite length_seq in Hperm.
        simpl in Hperm. unfold n_features_to_select in E. lia. }
      cbn [map firstn fold_left].
      set (f0 := nth r0 (features_of support) 0%nat).
      assert (Hf0 : nth f0 support false = true).
      { apply features_of_true. apply nth_In.
        now inversion Hrange. }
      pose proof (count_true_set_false f0 support Hf0) as Hcount.
      destruct (IH (S round) (set_false f0 support)) as (mask & Hm & Hl & Hc).
      * now rewrite length_set_false.
      * lia.
      * exists mask. rewrite Hm, Hl, Hc, length_set_false.
        repeat split. lia.
Qed.

(** C5. On a feature matrix with at least 20 columns the selector finishes
    and returns a boolean mask over the original columns with exactly 20
    entries set, so that exactly 20 columns of the features are retained. *)
Theorem rfe_fit_selects_20 (Xdf : frame) (X_scaled : matrix) (y : series) :
  length Xdf = n_features X_scaled ->
  (20 <= n_features X_scaled)%nat ->
  exists support,
    rfe_fit importances X_scaled y = Ok support
    /\ length support = n_features X_scaled
    /\ count_true support = 20%nat
    /\ length (select support X_scaled) = 20%nat
    /\ length (columns (select support Xdf)) = 20%nat.
Proof.
  intros Hdf Hn. unfold rfe_fit.
  destruct (rfe_loop_count X_scaled y (n_features X_scaled) 0
              (repeat true (n_features X_scaled)))
    as (mask & Hm & Hl & Hc).
  - apply repeat_length.
  - rewrite count_true_repeat. lia.
  - rewrite repeat_length in Hl. rewrite count_true_repeat in Hc.
    unfold n_features_to_select in Hc.
    exists mask. repeat split; auto; try lia.
    + rewrite length_select_mask by (unfold n_features in Hl; lia). lia.
    + unfold columns. rewrite length_map, length_select_mask by lia. lia.
Qed.

End FeatureSelectionFacts.

(** ** Split and balance *)

Section SplitBalanceFacts.

Variable permutation : nat -> list nat.
Variable fit_resample : matrix -> series -> result (matrix * series).

Lemma train_test_split_Ok (X : matrix) (y : series) (st : split_vars) :
  train_test_split permutation X y = Ok st ->
  let n := n_samples X in
  let n_test := ((n + 4) / 5)%nat in
  let ind_test := firstn n_test (permutation n) in
  let ind_train := firstn (n - n_test) (skipn n_test (permutation n)) in
  st = mk_split (matrix_rows ind_train X) (matrix_rows ind_test X)
                (series_rows ind_train y) (series_rows ind_test y)
                None None.
Proof.
  unfold train_test_split.
  destruct (negb (series_length y =? n_samples X)%nat); [discriminate |].
  destruct (_ =? 0)%nat; [discriminate |].
  intro H. injection H as <-. reflexivity.
Qed.

(** The balancer binds two new variables and leaves the four of the split
    as they were. *)
Lemma balance_frame (st0 st1 : split_vars) :
  balance fit_resample st0 = Ok st1 ->
  X_train st1 = X_train st0 /\ X_test st1 = X_test st0
  /\ y_train st1 = y_train st0 /\ y_test st1 = y_test st0
  /\ exists r, fit_resample (X_train st0) (y_train st0) = Ok r
               /\ X_train_resampled st1 = Some (fst r)
               /\ y_train_resampled st1 = Some (snd r).
Proof.
  unfold balance. intro H. inv_bind H. injection H as <-. simpl.
  repeat split. exists x. auto.
Qed.

(** C4. Whenever a split-and-balance cell succeeds, the variables of the
    test partition hold exactly what the split returned: the oversampler
    was applied to the training partition alone and bound two new
    variables, so the test rows, their number and the count of every label
    among them are those of the split (the 20% sample taken by the seeded
    shuffle), and the training partition itself is unchanged too. *)
Theorem balance_leaves_test_partition (X : matrix) (y : series)
  (st : split_vars) :
  split_and_balance permutation fit_resample X y = Ok st ->
  exists st0,
    train_test_split permutation X y = Ok st0
    /\ balance fit_resample st0 = Ok st
    /\ X_test st = X_test st0 /\ y_test st = y_test st0
    /\ n_samples (X_test st) = n_samples (X_test st0)
    /\ series_length (y_test st) = series_length (y_test st0)
    /\ (forall l, label_count l (y_test st) = label_count l (y_test st0))
    /\ X_train st = X_train st0 /\ y_train st = y_train st0
    /\ (exists r, fit_resample (X_train st0) (y_train st0) = Ok r
                  /\ X_train_resampled st = Some (fst r)
                  /\ y_train_resampled st = Some (snd r))
    /\ X_test st0
       = matrix_rows
           (firstn ((n_samples X + 4) / 5) (permutation (n_samples X))) X
    /\ y_test st0
       = series_rows
           (firstn ((n_samples X + 4) / 5) (permutation (n_samples X))) y.
Proof.
  unfold split_and_balance. intro H. inv_bind H.
  rename x into st0. exists st0.
  destruct (balance_frame st0 st H) as (H1 & H2 & H3 & H4 & H5).
  pose proof (train_test_split_Ok X y st0 Hx) as Hsplit. simpl in Hsplit.
  split; [exact Hx | split; [exact H |]].
  rewrite H1, H2, H3, H4.
  repeat split; auto.
  - rewrite Hsplit. reflexivity.
  - rewrite Hsplit. reflexivity.
Qed.

(** The sizes of the two partitions: a fifth of the rows, rounded up, is
    held out. *)
Lemma train_test_split_sizes (X : matrix) (y : series) (st : split_vars) :
  length (permutation (n_samples X)) = n_samples X ->
  train_test_split permutation X y = Ok st ->
  series_length (y_test st) = ((n_samples X + 4) / 5)%nat
  /\ series_length (y_train st)
     = (n_samples X - (n_samples X + 4) / 5)%nat.
Proof.
  intros Hp H. rewrite (train_test_split_Ok X y st H).
  cbn [y_test y_train].
  assert (Hle : ((n_samples X + 4) / 5 <= n_samples X)%nat).
  { unfold train_test_split in H.
    destruct (negb _); [discriminate |].
    destruct (n_samples X - (n_samples X + 4) / 5 =? 0)%nat eqn:E;
      [discriminate |].
    apply Nat.eqb_neq in E. lia. }
  destruct y; cbn [series_rows series_length]; unfold take_rows;
    rewrite !length_map, !length_firstn, length_skipn, Hp; lia.
Qed.

End SplitBalanceFacts.

Lemma balance_leaves_test_partition_witness :
  exists st st0,
    split_and_balance sample_permutation sample_resample six_rows six_labels
    = Ok st
    /\ train_test_split sample_permutation six_rows six_labels = Ok st0
    /\ balance sample_resample st0 = Ok st
    /\ X_test st = X_test st0 /\ y_test st = y_test st0
    /\ n_samples (X_test st) = n_samples (X_test st0)
    /\ series_length (y_test st) = series_length (y_test st0)
    /\ (forall l, label_count l (y_test st) = label_count l (y_test st0))
    /\ X_train st = X_train st0 /\ y_train st = y_train st0
    /\ (exists r, sample_resample (X_train st0) (y_train st0) = Ok r
                  /\ X_train_resampled st = Some (fst r)
                  /\ y_train_resampled st = Some (snd r))
    /\ X_test st0
       = matrix_rows
           (firstn ((n_samples six_rows + 4) / 5)
                   (sample_permutation (n_samples six_rows))) six_rows
    /\ y_test st0
       = series_rows
           (firstn ((n_samples six_rows + 4) / 5)
                   (sample_permutation (n_samples six_rows))) six_labels.
Proof.
  eexists.
  destruct (balance_leaves_test_partition sample_permutation sample_resample
              six_rows six_labels _ eq_refl) as (st0 & R).
  exists st0. split; [reflexivity | exact R].
Defined.

(** ** The standard scaler *)

Lemma select_map {A B : Type} (f : A -> B) (mask : list bool) (l : list A) :
  select mask (map f l) = map f (select mask l).
Proof.
  revert l. induction mask as [| b mask IH]; intros [| x l]; simpl;
    try reflexivity.
  destruct b; simpl; now rewrite IH.
Qed.

Lemma select_map2 {A B C : Type} (f : A -> B -> C) (mask : list bool)
  (l1 : list A) (l2 : list B) :
  select mask (map2 f l1 l2) = map2 f (select mask l1) (select mask l2).
Proof.
  revert l1 l2.
  induction mask as [| b mask IH]; intros [| x l1] [| z l2]; simpl;
    try reflexivity.
  - destruct b; simpl; [reflexivity |].
    now destruct (select mask l1).
  - destruct b; simpl; now rewrite IH.
Qed.

Lemma to_numeric_select (mask : list bool) (X : frame) (m : matrix) :
  to_numeric X = Ok m -> to_numeric (select mask X) = Ok (select mask m).
Proof.
  revert mask m. induction X as [| [n s] rest IH]; intros mask m H.
  - simpl in H. injection H as <-. now destruct mask.
  - simpl in H. destruct s as [xs | xs]; [| discriminate].
    inv_bind H. injection H as <-.
    destruct mask as [| b mask]; [reflexivity |].
    destruct b; simpl.
    + now rewrite (IH mask x Hx).
    + now apply IH.
Qed.

Lemma check_array_Ok (m m' : matrix) : check_array m = Ok m' -> m' = m.
Proof.
  unfold check_array.
  destruct (n_features m =? 0)%nat; [discriminate |].
  destruct (n_samples m =? 0)%nat; [discriminate |].
  destruct (existsb _ m); [discriminate | congruence].
Qed.

Section StandardizeFacts.

Variable fsqrt : Q -> Q.

(** A fit depends on the data alone: the scaler is overwritten with the
    names and the column-wise parameters of the frame it is given. *)
Lemma fit_transform_Ok (old : option StandardScaler) (X : frame)
  (r : option StandardScaler * matrix) :
  fit_transform fsqrt old X = Ok r ->
  exists m,
    to_numeric X = Ok m
    /\ fst r = Some (mk_scaler (columns X) (map (fit_column fsqrt) m))
    /\ snd r = map2 (transform_column) (map (fit_column fsqrt) m) m.
Proof.
  unfold fit_transform. intro H. inv_bind H. inv_bind H.
  apply check_array_Ok in Hx0. subst x0.
  injection H as <-. exists x. auto.
Qed.

End StandardizeFacts.

Section ScalerReuse.

Variable fsqrt : Q -> Q.
Variable permutation : nat -> list nat.
Variable fit_resample : matrix -> series -> result (matrix * series).
Variable importances : nat -> matrix -> series -> list Q.

Lemma prepare_Ok (df : frame) (p : prepared) :
  prepare fsqrt df = Ok p ->
  exists m,
    to_numeric (X p) = Ok m
    /\ scaler_std p
       = Some (mk_scaler (columns (X p)) (map (fit_column fsqrt) m))
    /\ X_scaled p = map2 transform_column (map (fit_column fsqrt) m) m.
Proof.
  unfold prepare. intro H. inv_bind H. inv_bind H. inv_bind H.
  injection H as <-. simpl.
  now apply fit_transform_Ok with (old := None).
Qed.

Lemma length_to_numeric (df : frame) (m : matrix) :
  to_numeric df = Ok m -> length m = length df.
Proof.
  revert m. induction df as [| [n s] rest IH]; intros m H; simpl in H.
  - injection H as <-. reflexivity.
  - destruct s; [| discriminate]. inv_bind H. injection H as <-.
    simpl. f_equal. now apply IH.
Qed.

Lemma length_map2_same {A B C : Type} (f : A -> B -> C) (l1 : list A)
  (l2 : list B) :
  length l1 = length l2 -> length (map2 f l1 l2) = length l2.
Proof.
  revert l2. induction l1 as [| a l1 IH]; intros [| b l2] H; simpl in *;
    try reflexivity; try discriminate.
  f_equal. apply IH. lia.
Qed.

(** The standardized array has one column per feature column. *)
Lemma prepare_shape (df : frame) (p : prepared) :
  prepare fsqrt df = Ok p -> length (X p) = n_features (X_scaled p).
Proof.
  intro H. destruct (prepare_Ok df p H) as (m & Hm & _ & Hx).
  unfold n_features. rewrite Hx, length_map2_same by apply length_map.
  symmetry. now apply length_to_numeric.
Qed.

Lemma select_features_Ok (p : prepared) (s : selected) :
  select_features fsqrt permutation fit_resample importances p = Ok s ->
  rfe_fit importances (X_scaled p) (y p) = Ok (support_ s)
  /\ X_selected s = select (support_ s) (X p)
  /\ fit_transform fsqrt (scaler_std p) (X_selected s)
     = Ok (scaler_std' s, X_scaled_selected s)
  /\ split_and_balance permutation fit_resample (X_scaled_selected s) (y p)
     = Ok (sel s).
Proof.
  unfold select_features. intro H. inv_bind H. inv_bind H. inv_bind H.
  injection H as <-. simpl. destruct x0; auto.
Qed.


End ScalerReuse.

Ltac run_to v t :=
  let r := eval vm_compute in t in
  match r with
  | Ok ?x => pose (v := x); assert (t = Ok v) by (vm_compute; reflexivity)
  end.

Lemma sample_importances_shape (round : nat) (Xs : matrix) (y : series) :
  length (sample_importances round Xs y) = n_features Xs.
Proof. unfold sample_importances. now rewrite length_map, length_seq. Qed.



Lemma rfe_fit_selects_20_witness :
  exists p support,
    prepare sample_sqrt (wide 21) = Ok p
    /\ rfe_fit sample_importances (X_scaled p) (y p) = Ok support
    /\ length support = n_features (X_scaled p)
    /\ count_true support = 20%nat
    /\ length (select support (X_scaled p)) = 20%nat
    /\ length (columns (select support (X p))) = 20%nat.
Proof.
  run_to p (prepare sample_sqrt (wide 21)).
  exists p.
  destruct (rfe_fit_selects_20 sample_importances sample_importances_shape
              (X p) (X_scaled p) (y p))
    as (support & R); [reflexivity | vm_compute; lia |].
  exists support. auto.
Defined.

(** ** Sorting the rows of a frame *)

Lemma combine_seq_nth {A : Type} (d : A) (l : list A) (k i : nat) (x : A) :
  In (i, x) (combine (seq k (length l)) l) ->
  (k <= i < k + length l)%nat /\ nth (i - k) l d = x.
Proof.
  revert k. induction l as [| a l IH]; intros k H; simpl in H;
    [contradiction |].
  destruct H as [H | H].
  - injection H as <- <-. rewrite Nat.sub_diag. simpl. split; [lia | auto].
  - apply IH in H. destruct H as [H1 H2]. simpl. split; [lia |].
    replace (i - k)%nat with (S (i - S k)) by lia. exact H2.
Qed.

Lemma enumerate_nth {A : Type} (d : A) (l : list A) (i : nat) (x : A) :
  In (i, x) (enumerate l) -> (i < length l)%nat /\ nth i l d = x.
Proof.
  intro H. apply (combine_seq_nth d) in H.
  rewrite Nat.sub_0_r in H. split; [lia | tauto].
Qed.

(** Taking the rows at the positions of a rearrangement of the enumerated
    column gives back the values paired with these positions. *)
Lemma take_rows_of_pairs {A : Type} (d : A) (v : list A)
  (pairs : list (nat * A)) :
  Permutation pairs (enumerate v) ->
  take_rows d (map fst pairs) v = map snd pairs.
Proof.
  intro Hperm. unfold take_rows. rewrite map_map.
  apply map_ext_in. intros [i x] Hin. simpl.
  apply (Permutation_in _ Hperm) in Hin.
  now apply (enumerate_nth d) in Hin.
Qed.

Lemma take_rows_map {A B : Type} (f : A -> B) (d : A) (d' : B)
  (idx : list nat) (v : list A) :
  Forall (fun i => (i < length v)%nat) idx ->
  take_rows d' idx (map f v) = map f (take_rows d idx v).
Proof.
  intro H. unfold take_rows. rewrite map_map.
  apply map_ext_in. intros i Hi.
  rewrite Forall_forall in H. specialize (H i Hi).
  rewrite (nth_indep _ d' (f d)) by (now rewrite length_map).
  apply map_nth.
Qed.

Lemma take_rows_In {A : Type} (d : A) (idx : list nat) (v : list A) (x : A) :
  Forall (fun i => (i < length v)%nat) idx ->
  In x (take_rows d idx v) -> In x v.
Proof.
  intros H Hin. unfold take_rows in Hin. apply in_map_iff in Hin.
  destruct Hin as (i & <- & Hi).
  rewrite Forall_forall in H. apply nth_In. now apply H.
Qed.

Lemma desc_before_total (a b : cell) :
  desc_before a b = true \/ desc_before b a = true.
Proof.
  destruct a as [x | | |], b as [z | | |]; simpl; auto.
  unfold cle, clt. rewrite !negb_involutive.
  destruct (Qlt_le_dec x z) as [L | L].
  - right. apply Qle_bool_iff. lra.
  - left. now apply Qle_bool_iff.
Qed.

Lemma desc_before_Fin (a b : Q) :
  desc_before (Fin a) (Fin b) = true <-> b <= a.
Proof.
  simpl. unfold cle, clt. rewrite negb_involutive. apply Qle_bool_iff.
Qed.

Lemma Sorted_map {A B : Type} (f : A -> B) (R : B -> B -> Prop)
  (l : list A) :
  Sorted R (map f l) <-> Sorted (fun a b => R (f a) (f b)) l.
Proof.
  induction l as [| a l IH]; simpl.
  - split; constructor.
  - split; intro H; apply Sorted_inv in H; destruct H as [H1 H2];
      constructor; try (now apply IH).
    + destruct l; simpl in *; constructor. now inversion H2.
    + destruct l; simpl in *; constructor. now inversion H2.
Qed.

Lemma sort_index_perm (v : list cell) :
  Permutation (sort_index v) (seq 0 (length v)).
Proof.
  unfold sort_index. rewrite <- map_fst_enumerate.
  apply Permutation_map, sort_by_perm.
Qed.

Lemma sort_index_in_range (v : list cell) :
  Forall (fun i => (i < length v)%nat) (sort_index v).
Proof.
  apply Forall_forall. intros i Hi.
  apply (Permutation_in _ (sort_index_perm v)) in Hi.
  apply in_seq in Hi. lia.
Qed.

Lemma sort_index_sorted (v : list cell) :
  Sorted (fun a b => desc_before a b = true)
         (take_rows NaN (sort_index v) v).
Proof.
  unfold sort_index.
  rewrite take_rows_of_pairs by apply sort_by_perm.
  apply Sorted_map.
  apply (sort_by_sorted (fun a b => desc_before (snd a) (snd b))).
  intros a b. apply desc_before_total.
Qed.

(** The sorted risks of a finite column, highest first. *)
Lemma sort_index_risk (risk : list Q) :
  let idx := sort_index (map Fin risk) in
  take_rows NaN idx (map Fin risk) = map Fin (take_rows 0 idx risk)
  /\ StronglySorted (fun a b => b <= a) (take_rows 0 idx risk)
  /\ Permutation (take_rows 0 idx risk) risk.
Proof.
  intro idx.
  assert (Hrange : Forall (fun i => (i < length risk)%nat) idx).
  { pose proof (sort_index_in_range (map Fin risk)) as H.
    now rewrite length_map in H. }
  assert (E : take_rows NaN idx (map Fin risk)
              = map Fin (take_rows 0 idx risk))
    by (now apply take_rows_map).
  split; [exact E | split].
  - apply Sorted_StronglySorted.
    + intros a b c Hab Hbc. eapply Qle_trans; eauto.
    + pose proof (sort_index_sorted (map Fin risk)) as Hs.
      fold idx in Hs. rewrite E in Hs. apply Sorted_map in Hs.
      eapply Sorted_ind with (P := fun l => Sorted (fun a b => b <= a) l);
        [constructor | | exact Hs].
      intros a l _ IH Hhd. constructor; [exact IH |].
      destruct Hhd; constructor. now apply desc_before_Fin.
  - assert (Hp : Permutation (map Fin (take_rows 0 idx risk))
                              (map Fin risk)).
    { rewrite <- E. unfold idx, sort_index.
      rewrite take_rows_of_pairs by apply sort_by_perm.
      rewrite (Permutation_map snd (sort_by_perm _ (enumerate (map Fin risk)))).
      unfold enumerate. rewrite map_snd_combine by (now rewrite length_seq).
      reflexivity. }
    apply Permutation_map_inv in Hp. destruct Hp as (l' & Hl' & Hp).
    assert (Inj : forall l1 l2, map Fin l1 = map Fin l2 -> l1 = l2).
    { induction l1 as [| a l1 IH]; intros [| b l2] H; simpl in H;
        try discriminate; [reflexivity |].
      injection H as -> H. f_equal. now apply IH. }
    apply Inj in Hl'. subst l'. now symmetry.
Qed.

(** ** The scored and exported table *)

Lemma assign_Ok (name : string) (s : series) (df df' : frame) :
  assign name s df = Ok df' ->
  df' = setitem name s df /\ series_length s = n_rows df.
Proof.
  unfold assign. destruct (series_length s =? n_rows df)%nat eqn:E;
    [| discriminate].
  intro H. injection H as <-. apply Nat.eqb_eq in E. auto.
Qed.

Lemma score_Ok (prob_stay : list Q) (df scored : frame) :
  score prob_stay df = Ok scored ->
  exists risk levels,
    length prob_stay = n_rows df
    /\ retention_risk prob_stay = Ok risk
    /\ risk_levels risk = Ok levels
    /\ scored
       = setitem "Risk_Level" (Categorical levels)
           (setitem "Retention_Risk" (Floats (map Fin risk))
              (setitem "Predicted_Prob_Stay" (Floats (map Fin prob_stay))
                       df)).
Proof.
  unfold score. intro H.
  inv_bind H. inv_bind H. inv_bind H. inv_bind H.
  apply assign_Ok in Hx, Hx1, H.
  destruct Hx as [-> Hlen], Hx1 as [-> _], H as [-> _].
  exists x0, x2. simpl in Hlen. rewrite length_map in Hlen. auto.
Qed.

Lemma lookup_map_series (f : series -> series) (name : string) (df : frame) :
  lookup name (map (fun c => (fst c, f (snd c))) df)
  = option_map f (lookup name df).
Proof.
  induction df as [| [n s] rest IH]; simpl; [reflexivity |].
  destruct (String.eqb name n); [reflexivity | exact IH].
Qed.

Lemma columns_map_series (f : series -> series) (df : frame) :
  columns (map (fun c => (fst c, f (snd c))) df) = columns df.
Proof. unfold columns. rewrite map_map. reflexivity. Qed.

Lemma export_Ok (df out : frame) (v : list cell) :
  lookup "Retention_Risk" df = Some (Floats v) ->
  export df = Ok out ->
  out = map (fun c => (fst c, series_rows (sort_index v) (snd c))) df.
Proof.
  unfold export, sort_values_desc, getitem. intros -> H.
  simpl in H. congruence.
Qed.

(** The columns after feature engineering: those of the input, then the
    derived ones whose sources the input has. *)
Lemma derived_columns_iff a b out formula df df' name :
  derived a b out formula df df' ->
  In name (columns df')
  <-> In name (columns df)
      \/ (has_column a df && has_column b df = true /\ name = out).
Proof.
  intro H. rewrite (derived_columns _ _ _ _ _ _ H), in_app_iff.
  destruct (has_column out df) eqn:Eo.
  - apply has_column_In in Eo. simpl. split.
    + intros [Hin | []]. auto.
    + intros [Hin | [_ ->]]; auto.
  - destruct (has_column a df && has_column b df); simpl.
    + split.
      * intros [Hin | [<- | []]]; auto.
      * intros [Hin | [_ ->]]; auto.
    + split.
      * intros [Hin | []]; auto.
      * intros [Hin | [Hf _]]; [auto | discriminate].
Qed.

Lemma feature_engineer_columns (df df' : frame) :
  feature_engineer df = Ok df' ->
  (exists added, columns df' = columns df ++ added)
  /\ (forall name, In name (columns df')
                   <-> In name (columns df) \/ In name (engineered_names df))
  /\ (forall name, ~ In name derived_names ->
                   lookup name df' = lookup name df).
Proof.
  intro H. destruct (feature_engineer_Ok _ _ H) as (df1 & df2 & H1 & H2 & H3).
  assert (L1 : forall n, n <> "Engagement_Index" -> lookup n df1 = lookup n df)
    by (intros; eapply derived_lookup_other; eauto).
  assert (L2 : forall n, n <> "Promotion_Rate" -> lookup n df2 = lookup n df1)
    by (intros; eapply derived_lookup_other; eauto).
  assert (L3 : forall n, n <> "Overtime_SensitiveRole" ->
                         lookup n df' = lookup n df2)
    by (intros; eapply derived_lookup_other; eauto).
  split; [| split].
  - destruct (derived_added _ _ _ _ _ _ H1) as (a1 & C1 & _).
    destruct (derived_added _ _ _ _ _ _ H2) as (a2 & C2 & _).
    destruct (derived_added _ _ _ _ _ _ H3) as (a3 & C3 & _).
    exists (a1 ++ a2 ++ a3). rewrite C3, C2, C1, <- !app_assoc. reflexivity.
  - intro name.
    rewrite (derived_columns_iff _ _ _ _ _ _ name H3).
    rewrite (derived_columns_iff _ _ _ _ _ _ name H2).
    rewrite (derived_columns_iff _ _ _ _ _ _ name H1).
    rewrite (has_column_ext "YearsSinceLastPromotion" df1 df)
      by (apply L1; names_differ).
    rewrite (has_column_ext "YearsAtCompany" df1 df)
      by (apply L1; names_differ).
    rewrite (has_column_ext "Doing_Overtime" df2 df)
      by (rewrite L2, L1 by names_differ; reflexivity).
    rewrite (has_column_ext "Laboratory_Technician" df2 df)
      by (rewrite L2, L1 by names_differ; reflexivity).
    unfold engineered_names. rewrite !in_app_iff.
    destruct (has_column "JobSatisfaction" df && has_column "WorkLifeBalance" df),
      (has_column "YearsSinceLastPromotion" df && has_column "YearsAtCompany" df),
      (has_column "Doing_Overtime" df && has_column "Laboratory_Technician" df);
      simpl; intuition (subst; auto; try discriminate).
  - intros name Hn. unfold derived_names in Hn. simpl in Hn.
    rewrite L3, L2, L1; auto; intro E; apply Hn; subst; auto.
Qed.

Lemma In_columns_setitem (name other : string) (s : series) (df : frame) :
  In other (columns (setitem name s df))
  <-> In other (columns df) \/ other = name.
Proof.
  rewrite columns_setitem, in_app_iff.
  destruct (has_column name df) eqn:E; simpl.
  - apply has_column_In in E. intuition (subst; auto).
  - intuition auto.
Qed.

Section ExportedTable.

Variable fsqrt : Q -> Q.
Variable permutation : nat -> list nat.
Variable fit_resample : matrix -> series -> result (matrix * series).
Variable importances : nat -> matrix -> series -> list Q.
Variable model : Type.
Variable fit_calibrated : matrix -> series -> result model.
Variable predict_proba_stay : model -> matrix -> result (list Q).
Variable evaluate : model -> split_vars -> matrix -> series -> result unit.

(** A classifier predicts probabilities. *)
Hypothesis predict_proba_range :
  forall m Xs ps,
    predict_proba_stay m Xs = Ok ps -> Forall (fun p => 0 <= p <= 1) ps.

Lemma run_Ok (df out : frame) :
  run fsqrt permutation fit_resample importances model fit_calibrated
      predict_proba_stay evaluate df = Ok out ->
  exists engineered prob_stay scored,
    feature_engineer df = Ok engineered
    /\ Forall (fun p => 0 <= p <= 1) prob_stay
    /\ score prob_stay engineered = Ok scored
    /\ export scored = Ok out.
Proof.
  unfold run. intro H.
  inv_bind H. inv_bind H. inv_bind H. inv_bind H. inv_bind H. inv_bind H.
  inv_bind H. inv_bind H.
  exists x, x5, x6. repeat split; auto.
  eapply predict_proba_range; eauto.
Qed.


End ExportedTable.

Lemma sample_predict_range (m : unit) (Xs : matrix) (ps : list Q) :
  sample_predict m Xs = Ok ps -> Forall (fun p => 0 <= p <= 1) ps.
Proof.
  unfold sample_predict. intro H. injection H as <-.
  apply Forall_forall. intros p Hp. apply in_map_iff in Hp.
  destruct Hp as (i & <- & _).
  unfold Qle; cbn [Qnum Qden].
  rewrite Zpos_P_of_succ_nat. lia.
Qed.



(** * Further properties of the cells *)

(** ** Cell 3: what the preparation reads and what it refuses *)

Lemma prepare_parts (fsqrt : Q -> Q) (df : frame) (p : prepared) :
  prepare fsqrt df = Ok p ->
  drop ["Retained"; "EmployeeNumber"] Ignore df = Ok (X p)
  /\ lookup "Retained" df = Some (y p)
  /\ fit_transform fsqrt None (X p) = Ok (scaler_std p, X_scaled p).
Proof.
  unfold prepare. intro H. inv_bind H. inv_bind H. inv_bind H.
  injection H as <-. simpl. apply getitem_Ok in Hx0.
  destruct x1. auto.
Qed.

Lemma columns_drop (names : list string) (df X : frame) :
  drop names Ignore df = Ok X ->
  columns X
  = filter (fun n => negb (existsb (String.eqb n) names)) (columns df).
Proof.
  unfold drop. intro H. injection H as <-. unfold columns.
  induction df as [| [n s] rest IH]; simpl; [reflexivity |].
  destruct (existsb (String.eqb n) names); simpl; now rewrite IH.
Qed.

(** The features never contain the target or the identifier; every other
    column of the table, engineered ones included, is a feature with the
    values it has in the table, in the table's order; and the label vector
    is the target column. *)
Theorem prepare_separates_target (fsqrt : Q -> Q) (df : frame)
  (p : prepared) :
  prepare fsqrt df = Ok p ->
  lookup "Retained" df = Some (y p)
  /\ ~ In "Retained" (columns (X p))
  /\ ~ In "EmployeeNumber" (columns (X p))
  /\ columns (X p)
     = filter (fun n => negb (existsb (String.eqb n)
                                      ["Retained"; "EmployeeNumber"]))
              (columns df)
  /\ forall name,
       name <> "Retained" -> name <> "EmployeeNumber" ->
       lookup name (X p) = lookup name df.
Proof.
  intro H. destruct (prepare_parts fsqrt df p H) as (Hdrop & Hy & _).
  pose proof (columns_drop _ _ _ Hdrop) as Hcols.
  split; [exact Hy |]. split; [| split; [| split; [exact Hcols |]]].
  - rewrite Hcols. intro Hin. apply filter_In in Hin.
    destruct Hin as [_ Hin]. discriminate Hin.
  - rewrite Hcols. intro Hin. apply filter_In in Hin.
    destruct Hin as [_ Hin]. discriminate Hin.
  - intros name H1 H2. rewrite (lookup_drop _ _ _ _ name Hdrop). simpl.
    apply String.eqb_neq in H1, H2. now rewrite H1, H2.
Qed.

Lemma prepare_separates_target_witness :
  exists p,
    prepare sample_sqrt staff_engineered = Ok p
    /\ lookup "Retained" staff_engineered = Some (y p)
    /\ ~ In "Retained" (columns (X p))
    /\ ~ In "EmployeeNumber" (columns (X p))
    /\ columns (X p)
       = filter (fun n => negb (existsb (String.eqb n)
                                        ["Retained"; "EmployeeNumber"]))
                (columns staff_engineered)
    /\ forall name,
         name <> "Retained" -> name <> "EmployeeNumber" ->
         lookup name (X p) = lookup name staff_engineered.
Proof.
  run_to p (prepare sample_sqrt staff_engineered).
  exists p. split; [exact H |].
  exact (prepare_separates_target sample_sqrt staff_engineered p H).
Defined.

Section MissingTarget.

Variable fsqrt : Q -> Q.
Variable permutation : nat -> list nat.
Variable fit_resample : matrix -> series -> result (matrix * series).
Variable importances : nat -> matrix -> series -> list Q.
Variable model : Type.
Variable fit_calibrated : matrix -> series -> result model.
Variable predict_proba_stay : model -> matrix -> result (list Q).
Variable evaluate : model -> split_vars -> matrix -> series -> result unit.

(** The tolerance of the drop does not extend to the target: on a table
    without [Retained] the preparation raises [KeyError], and so does every
    run whose feature engineering succeeds. *)
Theorem missing_target_raises (df : frame) :
  has_column "Retained" df = false ->
  prepare fsqrt df = Err KeyError
  /\ forall engineered,
       feature_engineer df = Ok engineered ->
       run fsqrt permutation fit_resample importances model fit_calibrated
           predict_proba_stay evaluate df = Err KeyError.
Proof.
  intro Hno.
  assert (Hprep : forall d, lookup "Retained" d = None ->
                            prepare fsqrt d = Err KeyError).
  { intros d Hd. unfold prepare, drop, getitem. simpl bind.
    now rewrite Hd. }
  split.
  - apply Hprep. now apply has_column_false.
  - intros engineered He. unfold run. rewrite He. cbn [bind].
    rewrite Hprep; [reflexivity |].
    destruct (feature_engineer_columns _ _ He) as (_ & _ & Hkeep).
    rewrite Hkeep; [now apply has_column_false |].
    unfold derived_names. simpl. intuition discriminate.
Qed.

End MissingTarget.

Lemma missing_target_raises_witness :
  prepare sample_sqrt unlabelled = Err KeyError
  /\ forall engineered,
       feature_engineer unlabelled = Ok engineered ->
       sample_run unlabelled = Err KeyError.
Proof.
  exact (missing_target_raises sample_sqrt sample_permutation sample_resample
           sample_importances unit sample_fit sample_predict sample_evaluate
           unlabelled eq_refl).
Defined.

(** ** Cell 3: infinite values *)

Lemma to_numeric_cases (df : frame) :
  (exists m, to_numeric df = Ok m) \/ to_numeric df = Err ValueError.
Proof.
  induction df as [| [n s] rest IH]; simpl.
  - left. now exists [].
  - destruct s as [xs | xs]; [| now right].
    destruct IH as [(m & ->) | ->]; simpl; [left; eauto | now right].
Qed.

Lemma to_numeric_In (df : frame) (m : matrix) (name : string)
  (xs : list cell) :
  to_numeric df = Ok m -> lookup name df = Some (Floats xs) -> In xs m.
Proof.
  revert m. induction df as [| [n s] rest IH]; intros m H L; simpl in *;
    [discriminate |].
  destruct s as [ys | ys]; [| discriminate].
  inv_bind H. injection H as <-.
  destruct (String.eqb name n).
  - injection L as ->. now left.
  - right. now apply IH.
Qed.

Lemma check_array_cases (m : matrix) :
  check_array m = Ok m \/ check_array m = Err ValueError.
Proof.
  unfold check_array.
  destruct (n_features m =? 0)%nat; [now right |].
  destruct (n_samples m =? 0)%nat; [now right |].
  destruct (existsb _ m); [now right | now left].
Qed.

Lemma check_array_inf (m : matrix) (xs : list cell) :
  In xs m -> existsb is_inf xs = true -> check_array m = Err ValueError.
Proof.
  intros Hin Hinf.
  destruct (check_array_cases m) as [H | H]; [| exact H].
  unfold check_array in H.
  destruct (n_features m =? 0)%nat; [discriminate |].
  destruct (n_samples m =? 0)%nat; [discriminate |].
  assert (E : existsb (existsb is_inf) m = true)
    by (apply existsb_exists; eauto).
  rewrite E in H. discriminate.
Qed.

(** An infinite value in any feature column makes the standardization, and
    with it the preparation, raise [ValueError]. *)
Lemma infinite_feature_raises (fsqrt : Q -> Q) (df : frame) (name : string)
  (xs : list cell) (yv : series) :
  lookup "Retained" df = Some yv ->
  name <> "Retained" -> name <> "EmployeeNumber" ->
  lookup name df = Some (Floats xs) ->
  existsb is_inf xs = true ->
  prepare fsqrt df = Err ValueError.
Proof.
  intros Hy H1 H2 Hx Hinf.
  unfold prepare.
  destruct (drop ["Retained"; "EmployeeNumber"] Ignore df) as [X0 | |] eqn:Hd;
    try discriminate.
  cbn [bind]. unfold getitem. rewrite Hy. cbn [bind].
  assert (Lx : lookup name X0 = Some (Floats xs)).
  { rewrite (lookup_drop _ _ _ _ name Hd). simpl.
    apply String.eqb_neq in H1, H2. now rewrite H1, H2. }
  unfold fit_transform.
  destruct (to_numeric_cases X0) as [(m & Hm) | Hm]; rewrite Hm;
    [| reflexivity].
  cbn [bind].
  rewrite (check_array_inf m xs); [reflexivity | | exact Hinf].
  eapply to_numeric_In; eauto.
Qed.

Lemma nth_error_map2 {A B C : Type} (f : A -> B -> C) (l1 : list A)
  (l2 : list B) (i : nat) (a : A) (b : B) :
  nth_error l1 i = Some a -> nth_error l2 i = Some b ->
  nth_error (map2 f l1 l2) i = Some (f a b).
Proof.
  revert l2 i. induction l1 as [| x l1 IH]; intros [| z l2] [| i] H1 H2;
    simpl in *; try discriminate.
  - congruence.
  - now apply IH.
Qed.

(** One row with a tenure of minus one and a non-zero number of years since
    the last promotion is enough to abort the run: its promotion rate is an
    infinity, which the standardization of the engineered table refuses. *)
Theorem odd_tenure_aborts (fsqrt : Q -> Q) (df engineered : frame)
  (a b : list cell) (yv : series) (i : nat) (x t : Q) :
  feature_engineer df = Ok engineered ->
  lookup "Retained" df = Some yv ->
  lookup "YearsSinceLastPromotion" df = Some (Floats a) ->
  lookup "YearsAtCompany" df = Some (Floats b) ->
  nth_error a i = Some (Fin x) ->
  nth_error b i = Some (Fin t) ->
  t == -1 -> ~ x == 0 ->
  prepare fsqrt engineered = Err ValueError.
Proof.
  intros He Hy Ha Hb Hai Hbi Ht Hx.
  destruct (feature_engineer_Ok _ _ He) as (df1 & df2 & H1 & H2 & H3).
  assert (L1 : forall n, n <> "Engagement_Index" -> lookup n df1 = lookup n df)
    by (intros; eapply derived_lookup_other; eauto).
  assert (L2 : forall n, n <> "Promotion_Rate" -> lookup n df2 = lookup n df1)
    by (intros; eapply derived_lookup_other; eauto).
  assert (L3 : forall n, n <> "Overtime_SensitiveRole" ->
                         lookup n engineered = lookup n df2)
    by (intros; eapply derived_lookup_other; eauto).
  pose proof (derived_formula _ _ _ _ _ _ H2) as F.
  assert (has_column "YearsSinceLastPromotion" df1 = true) as Ea
    by (apply has_column_lookup; rewrite L1 by names_differ; congruence).
  assert (has_column "YearsAtCompany" df1 = true) as Eb
    by (apply has_column_lookup; rewrite L1 by names_differ; congruence).
  rewrite Ea, Eb in F. simpl in F.
  destruct F as (sa & sb & v & Fa & Fb & Ff & Fv).
  rewrite L1, Ha in Fa by names_differ. injection Fa as <-.
  rewrite L1, Hb in Fb by names_differ. injection Fb as <-.
  unfold promotion_formula in Ff. simpl in Ff. injection Ff as <-.
  apply infinite_feature_raises
    with (name := "Promotion_Rate")
         (xs := map2 cdiv a (map (fun c => cadd c (Fin 1)) b)) (yv := yv).
  - rewrite L3, L2, L1 by names_differ. exact Hy.
  - names_differ.
  - names_differ.
  - rewrite L3 by names_differ. exact Fv.
  - apply existsb_exists.
    exists (cdiv (Fin x) (cadd (Fin t) (Fin 1))). split.
    + apply nth_error_In with i. apply nth_error_map2; [exact Hai |].
      rewrite nth_error_map, Hbi. reflexivity.
    + simpl.
      assert (Qeq_bool (t + 1) 0 = true) as ->
          by (apply Qeq_bool_iff; rewrite Ht; reflexivity).
      unfold inf_by_sign, Qsign.
      destruct (x ?= 0) eqn:E; try reflexivity.
      apply Qeq_alt in E. contradiction.
Qed.

Lemma odd_tenure_aborts_witness :
  exists engineered,
    feature_engineer odd_tenure = Ok engineered
    /\ prepare sample_sqrt engineered = Err ValueError.
Proof.
  run_to engineered (feature_engineer odd_tenure).
  exists engineered. split; [exact H |].
  apply (odd_tenure_aborts sample_sqrt odd_tenure engineered
           [Fin 1; Fin 2] [Fin 1; Fin (-1)] (floats [1; 0]) 1 2 (-1));
    try reflexivity; try exact H.
  intro E. discriminate E.
Defined.

(** ** Cell 3: what standardization does to a column *)

Lemma present_map_Fin (v : list Q) : present (map Fin v) = v.
Proof. induction v as [| x v IH]; simpl; [reflexivity | now rewrite IH]. Qed.

Lemma Qsum_map_ext (f g : Q -> Q) (l : list Q) :
  (forall x, In x l -> f x == g x) -> Qsum (map f l) == Qsum (map g l).
Proof.
  induction l as [| a l IH]; intro H; simpl; [reflexivity |].
  rewrite (H a) by (now left). rewrite IH; [reflexivity |].
  intros x Hx. apply H. now right.
Qed.

Lemma Qsum_map_scale (f : Q -> Q) (k : Q) (l : list Q) :
  Qsum (map (fun x => f x * k) l) == Qsum (map f l) * k.
Proof.
  induction l as [| a l IH]; simpl; [ring |]. rewrite IH. ring.
Qed.

Lemma Qsum_map_shift (m : Q) (l : list Q) :
  Qsum (map (fun x => x - m) l)
  == Qsum l - inject_Z (Z.of_nat (length l)) * m.
Proof.
  induction l as [| a l IH]; [simpl; ring |].
  change (length (a :: l)) with (S (length l)).
  rewrite Nat2Z.inj_succ, <- Z.add_1_r, inject_Z_plus.
  simpl. rewrite IH. ring.
Qed.

Lemma Qsum_nonneg (l : list Q) :
  (forall x, In x l -> 0 <= x) -> 0 <= Qsum l.
Proof.
  induction l as [| a l IH]; intro H; simpl; [apply Qle_refl |].
  assert (0 <= a) by (apply H; now left).
  assert (0 <= Qsum l) by (apply IH; intros; apply H; now right).
  lra.
Qed.

Lemma Qsum_zero_all_zero (l : list Q) :
  (forall x, In x l -> 0 <= x) -> Qsum l == 0 -> forall x, In x l -> x == 0.
Proof.
  induction l as [| a l IH]; intros Hpos Hsum x Hx; [contradiction |].
  simpl in Hsum.
  assert (Ha : 0 <= a) by (apply Hpos; now left).
  assert (Hl : 0 <= Qsum l)
    by (apply Qsum_nonneg; intros; apply Hpos; now right).
  destruct Hx as [<- | Hx]; [lra |].
  apply IH; auto; [intros; apply Hpos; now right | lra].
Qed.

Lemma inject_length_positive {A : Type} (a : A) (l : list A) :
  0 < inject_Z (Z.of_nat (length (a :: l))).
Proof.
  change 0 with (inject_Z 0). rewrite <- Zlt_Qlt. simpl length. lia.
Qed.

Lemma square_nonneg (x : Q) : 0 <= x * x.
Proof.
  destruct (Qlt_le_dec x 0) as [H | H].
  - assert (E : x * x == (- x) * (- x)) by ring. rewrite E.
    apply Qmult_le_0_compat; lra.
  - now apply Qmult_le_0_compat.
Qed.

Lemma square_zero (x : Q) : x * x == 0 -> x == 0.
Proof.
  intro H. destruct (Qeq_dec x 0) as [E | E]; [exact E |].
  exfalso. apply (Qmult_integral x x) in H. tauto.
Qed.

Section StandardizedColumn.

Variable fsqrt : Q -> Q.

(** On a column of finite values the scaler's fitted mean and variance are
    the mean and the population variance of the column. *)
Lemma fit_column_finite (a : Q) (l : list Q) :
  fit_column fsqrt (map Fin (a :: l))
  = mk_params (Fin (Qmean (a :: l))) (Fin (Qvariance (a :: l)))
              (if Qeq_bool (Qvariance (a :: l)) 0 then Fin 1
               else Fin (fsqrt (Qvariance (a :: l)))).
Proof.
  unfold fit_column, nanmean, nanvar. rewrite present_map_Fin.
  unfold Qvariance, Qmean. rewrite length_map. reflexivity.
Qed.


End StandardizedColumn.



(** ** Cells 4 and 5: the split *)

Section SplitFacts.

Variable permutation : nat -> list nat.

Lemma train_test_split_length (X : matrix) (y : series) (st : split_vars) :
  train_test_split permutation X y = Ok st ->
  series_length y = n_samples X /\ (2 <= n_samples X)%nat.
Proof.
  unfold train_test_split.
  destruct (series_length y =? n_samples X)%nat eqn:E1; cbn [negb];
    [| intro; discriminate].
  destruct (n_samples X - (n_samples X + 4) / 5 =? 0)%nat eqn:E2;
    [intro; discriminate |].
  intros _. apply Nat.eqb_eq in E1. apply Nat.eqb_neq in E2.
  split; [exact E1 |].
  destruct (n_samples X) as [| [| k]]; [| | lia].
  - exfalso. apply E2. reflexivity.
  - exfalso. apply E2. reflexivity.
Qed.

(** The split succeeds exactly on two or more rows with one label per row;
    in every other case it raises [ValueError]. *)
Theorem train_test_split_domain (X : matrix) (y : series) :
  (series_length y = n_samples X /\ (2 <= n_samples X)%nat ->
   exists st, train_test_split permutation X y = Ok st)
  /\ (~ (series_length y = n_samples X /\ (2 <= n_samples X)%nat) ->
      train_test_split permutation X y = Err ValueError).
Proof.
  split.
  - intros [Hy Hn]. unfold train_test_split.
    apply Nat.eqb_eq in Hy. rewrite Hy. cbn [negb].
    assert ((n_samples X - (n_samples X + 4) / 5 =? 0)%nat = false) as ->.
    { apply Nat.eqb_neq.
      assert ((n_samples X + 4) / 5 < n_samples X)%nat; [| lia].
      apply Nat.Div0.div_lt_upper_bound. lia. }
    eexists. reflexivity.
  - intro Hnot.
    destruct (train_test_split permutation X y) as [st | e |] eqn:E.
    + exfalso. apply Hnot. now apply train_test_split_length with st.
    + unfold train_test_split in E.
      destruct (negb _) in E; [congruence |].
      destruct (_ =? 0)%nat in E; [congruence | discriminate].
    + unfold train_test_split in E.
      destruct (negb _) in E; [discriminate |].
      destruct (_ =? 0)%nat in E; discriminate.
Qed.

(** With a shuffle that is a permutation of the row positions, every row
    lands in exactly one of the two partitions: the test rows and the
    training rows together are all rows, none twice, a fifth of them
    (rounded up) in the test partition. *)
Theorem split_partitions_rows (X : matrix) (y : series) (st : split_vars) :
  Permutation (permutation (n_samples X)) (seq 0 (n_samples X)) ->
  train_test_split permutation X y = Ok st ->
  exists ind_train ind_test,
    X_train st = matrix_rows ind_train X
    /\ X_test st = matrix_rows ind_test X
    /\ y_train st = series_rows ind_train y
    /\ y_test st = series_rows ind_test y
    /\ Permutation (ind_test ++ ind_train) (seq 0 (n_samples X))
    /\ (forall i, In i ind_test -> ~ In i ind_train)
    /\ length ind_test = ((n_samples X + 4) / 5)%nat
    /\ length ind_train = (n_samples X - (n_samples X + 4) / 5)%nat.
Proof.
  intros Hperm H.
  destruct (train_test_split_length X y st H) as [_ Hn].
  pose proof (train_test_split_Ok permutation X y st H) as E.
  cbv zeta in E.
  set (n := n_samples X) in *. set (k := ((n + 4) / 5)%nat) in *.
  set (p := permutation n) in *.
  assert (Hlen : length p = n).
  { rewrite (Permutation_length Hperm). apply length_seq. }
  assert (Hk : (k < n)%nat).
  { unfold k. apply Nat.Div0.div_lt_upper_bound. lia. }
  assert (Hall : firstn k p ++ firstn (n - k) (skipn k p) = p).
  { rewrite (firstn_all2 (skipn k p)) by (rewrite length_skipn; lia).
    apply firstn_skipn. }
  exists (firstn (n - k) (skipn k p)), (firstn k p).
  rewrite E. cbn [X_train X_test y_train y_test].
  repeat split.
  - rewrite Hall. exact Hperm.
  - intros i Hi1 Hi2.
    assert (Hnd : NoDup (firstn k p ++ firstn (n - k) (skipn k p))).
    { rewrite Hall. apply (Permutation_NoDup (Permutation_sym Hperm)).
      apply seq_NoDup. }
    apply NoDup_app_remove_l in Hnd as Hnd2.
    apply in_split in Hi1. destruct Hi1 as (l1 & l2 & El).
    rewrite El, <- app_assoc in Hnd. simpl in Hnd.
    apply NoDup_remove_2 in Hnd. apply Hnd.
    rewrite !in_app_iff. auto.
  - rewrite length_firstn. lia.
  - rewrite length_firstn, length_skipn. lia.
Qed.

End SplitFacts.

Lemma split_partitions_rows_witness :
  exists st ind_train ind_test,
    train_test_split sample_permutation six_rows six_labels = Ok st
    /\ X_train st = matrix_rows ind_train six_rows
    /\ X_test st = matrix_rows ind_test six_rows
    /\ y_train st = series_rows ind_train six_labels
    /\ y_test st = series_rows ind_test six_labels
    /\ Permutation (ind_test ++ ind_train) (seq 0 (n_samples six_rows))
    /\ (forall i, In i ind_test -> ~ In i ind_train)
    /\ length ind_test = ((n_samples six_rows + 4) / 5)%nat
    /\ length ind_train
       = (n_samples six_rows - (n_samples six_rows + 4) / 5)%nat.
Proof.
  eexists.
  destruct (split_partitions_rows sample_permutation six_rows six_labels _
              (Permutation_refl _) eq_refl)
    as (ind_train & ind_test & R).
  exists ind_train, ind_test. split; [reflexivity | exact R].
Defined.

(** ** Cell 5: selection on small tables, and the second split *)

Lemma select_all_true {A : Type} (l : list A) :
  select (repeat true (length l)) l = l.
Proof. induction l as [| a l IH]; simpl; [reflexivity | now rewrite IH]. Qed.

Lemma matrix_rows_select (idx : list nat) (mask : list bool) (M : matrix) :
  matrix_rows idx (select mask M) = select mask (matrix_rows idx M).
Proof. unfold matrix_rows. now rewrite select_map. Qed.

Section SmallTables.

Variable fsqrt : Q -> Q.
Variable permutation : nat -> list nat.
Variable fit_resample : matrix -> series -> result (matrix * series).
Variable importances : nat -> matrix -> series -> list Q.

Lemma rfe_fit_small (M : matrix) (labels : series) :
  (n_features M <= 20)%nat ->
  rfe_fit importances M labels = Ok (repeat true (n_features M)).
Proof.
  intro H. unfold rfe_fit.
  assert (E : (count_true (repeat true (n_features M))
               <=? n_features_to_select)%nat = true).
  { apply Nat.leb_le. rewrite count_true_repeat.
    unfold n_features_to_select. exact H. }
  destruct (n_features M) as [| k] eqn:En.
  - simpl. reflexivity.
  - rewrite <- En in *. rewrite En at 1.
    cbn [rfe_loop]. rewrite E. reflexivity.
Qed.


(** The array scored in cell 8 is the selected columns of the array
    standardized in cell 3. *)
Lemma selected_array (df : frame) (p : prepared) (s : selected) :
  prepare fsqrt df = Ok p ->
  select_features fsqrt permutation fit_resample importances p = Ok s ->
  X_scaled_selected s = select (support_ s) (X_scaled p)
  /\ exists sc1 sc2,
      scaler_std p = Some sc1 /\ scaler_std' s = Some sc2
      /\ feature_names_in_ sc2 = select (support_ s) (feature_names_in_ sc1)
      /\ params_ sc2 = select (support_ s) (params_ sc1).
Proof.
  intros Hp Hs.
  destruct (prepare_Ok fsqrt df p Hp) as (m1 & Hm1 & Hsc1 & Hx1).
  destruct (select_features_Ok fsqrt permutation fit_resample importances
              p s Hs) as (_ & Hsel & Hfit & _).
  apply fit_transform_Ok in Hfit. destruct Hfit as (m2 & Hm2 & Hsc2 & Hx2).
  simpl in Hsc2, Hx2.
  rewrite Hsel in Hm2. rewrite (to_numeric_select _ _ _ Hm1) in Hm2.
  injection Hm2 as <-.
  split.
  - rewrite Hx2, Hx1, select_map2, select_map. reflexivity.
  - eexists _, _. split; [exact Hsc1 | split; [exact Hsc2 |]]. simpl.
    rewrite Hsel. unfold columns. now rewrite !select_map.
Qed.

(** On a table with at most 20 feature columns cell 5 repeats cells 3
    and 4: every column is selected, the refitted scaler and the array it
    returns are those of the first fit, and the second split and balance
    is the first one over again. *)
Theorem small_table_selection (df : frame) (p : prepared) (s : selected) :
  prepare fsqrt df = Ok p ->
  (n_features (X_scaled p) <= 20)%nat ->
  select_features fsqrt permutation fit_resample importances p = Ok s ->
  support_ s = repeat true (n_features (X_scaled p))
  /\ X_selected s = X p
  /\ scaler_std' s = scaler_std p
  /\ X_scaled_selected s = X_scaled p
  /\ split_and_balance permutation fit_resample (X_scaled p) (y p)
     = Ok (sel s).
Proof.
  intros Hp Hn Hs.
  destruct (select_features_Ok fsqrt permutation fit_resample importances
              p s Hs) as (Hrfe & Hsel & Hfit & Hsplit).
  pose proof (rfe_fit_small (X_scaled p) (y p) Hn) as Hall.
  rewrite Hall in Hrfe. injection Hrfe as Hsup.
  pose proof (prepare_shape fsqrt df p Hp) as Hshape.
  assert (HX : X_selected s = X p).
  { rewrite Hsel, <- Hsup, <- Hshape. apply select_all_true. }
  destruct (prepare_parts fsqrt df p Hp) as (_ & _ & Hfit1).
  rewrite HX in Hfit.
  assert (Hfit' : fit_transform fsqrt (scaler_std p) (X p)
                  = fit_transform fsqrt None (X p)) by reflexivity.
  rewrite Hfit', Hfit1 in Hfit. injection Hfit as Hsc Hxs.
  rewrite <- Hxs in Hsplit.
  repeat split; auto.
Qed.

(** Both splits hold out the same rows: the shuffle depends on the seed and
    the number of rows only, so the partitions of cell 5 are the selected
    columns of the partitions of cell 4, with the same labels. *)
Theorem second_split_same_rows (df : frame) (p : prepared) (s : selected)
  (st : split_vars) :
  prepare fsqrt df = Ok p ->
  train_test_split permutation (X_scaled p) (y p) = Ok st ->
  select_features fsqrt permutation fit_resample importances p = Ok s ->
  X_train (sel s) = select (support_ s) (X_train st)
  /\ X_test (sel s) = select (support_ s) (X_test st)
  /\ y_train (sel s) = y_train st
  /\ y_test (sel s) = y_test st.
Proof.
  intros Hp Hst Hs.
  destruct (selected_array df p s Hp Hs) as [Harr _].
  destruct (select_features_Ok fsqrt permutation fit_resample importances
              p s Hs) as (_ & _ & _ & Hsplit).
  unfold split_and_balance in Hsplit. inv_bind Hsplit.
  destruct (balance_frame fit_resample x (sel s) Hsplit)
    as (-> & -> & -> & -> & _).
  destruct (train_test_split_length permutation _ _ _ Hst) as [Hy1 _].
  destruct (train_test_split_length permutation _ _ _ Hx) as [Hy2 _].
  rewrite (train_test_split_Ok permutation _ _ _ Hst).
  rewrite (train_test_split_Ok permutation _ _ _ Hx).
  cbv zeta. cbn [X_train X_test y_train y_test].
  rewrite <- Hy2, Hy1, Harr, !matrix_rows_select. auto.
Qed.

End SmallTables.


Lemma small_table_selection_witness :
  exists p s,
    prepare sample_sqrt staff_engineered = Ok p
    /\ select_features sample_sqrt sample_permutation sample_resample
         sample_importances p = Ok s
    /\ support_ s = repeat true (n_features (X_scaled p))
    /\ X_selected s = X p
    /\ scaler_std' s = scaler_std p
    /\ X_scaled_selected s = X_scaled p
    /\ split_and_balance sample_permutation sample_resample (X_scaled p) (y p)
       = Ok (sel s).
Proof.
  run_to p (prepare sample_sqrt staff_engineered).
  run_to s (select_features sample_sqrt sample_permutation sample_resample
              sample_importances p).
  exists p, s. split; [exact H | split; [exact H0 |]].
  apply (small_table_selection sample_sqrt sample_permutation sample_resample
           sample_importances staff_engineered p s H); [| exact H0].
  vm_compute. lia.
Defined.

Lemma second_split_same_rows_witness :
  exists p s st,
    prepare sample_sqrt (wide 21) = Ok p
    /\ train_test_split sample_permutation (X_scaled p) (y p) = Ok st
    /\ select_features sample_sqrt sample_permutation sample_resample
         sample_importances p = Ok s
    /\ X_train (sel s) = select (support_ s) (X_train st)
    /\ X_test (sel s) = select (support_ s) (X_test st)
    /\ y_train (sel s) = y_train st
    /\ y_test (sel s) = y_test st.
Proof.
  run_to p (prepare sample_sqrt (wide 21)).
  run_to st (train_test_split sample_permutation (X_scaled p) (y p)).
  run_to s (select_features sample_sqrt sample_permutation sample_resample
              sample_importances p).
  exists p, s, st. split; [exact H | split; [exact H0 | split; [exact H1 |]]].
  exact (second_split_same_rows sample_sqrt sample_permutation sample_resample
           sample_importances (wide 21) p s st H H0 H1).
Defined.

(** ** Cell 8: percentiles *)

Lemma Qle_bool_total (a b : Q) : Qle_bool a b = true \/ Qle_bool b a = true.
Proof.
  destruct (Qlt_le_dec a b) as [H | H].
  - left. apply Qle_bool_iff. lra.
  - right. now apply Qle_bool_iff.
Qed.

Lemma sort_by_Qle_sorted (v : list Q) :
  StronglySorted Qle (sort_by Qle_bool v).
Proof.
  apply Sorted_StronglySorted.
  - intros a b c. apply Qle_trans.
  - pose proof (sort_by_sorted Qle_bool Qle_bool_total v) as H.
    induction H as [| a l _ IH Hhd]; constructor; [exact IH |].
    destruct Hhd; constructor. now apply Qle_bool_iff.
Qed.

Lemma StronglySorted_nth (s : list Q) (i j : nat) :
  StronglySorted Qle s -> (i <= j)%nat -> (j < length s)%nat ->
  nth i s 0 <= nth j s 0.
Proof.
  intro H. revert i j. induction H as [| a t _ IH Hall];
    intros i j Hij Hj; simpl in Hj; [lia |].
  destruct i as [| i], j as [| j]; simpl; try lia.
  - apply Qle_refl.
  - rewrite Forall_forall in Hall. apply Hall. apply nth_In. lia.
  - apply IH; lia.
Qed.

Lemma length_sort_by {A : Type} (le : A -> A -> bool) (l : list A) :
  length (sort_by le l) = length l.
Proof. apply Permutation_length, sort_by_perm. Qed.

(** The interpolation behind a quantile: a position [i] in the sorted
    batch and a fraction [g] with [i + g = (n - 1) q]. *)
Lemma quantile_form (x : Q) (v : list Q) (q : Q) :
  0 <= q <= 1 ->
  exists i g,
    quantile (x :: v) q
    = Fin (nth i (sort_by Qle_bool (x :: v)) 0
           + (nth (Nat.min (S i) (length v)) (sort_by Qle_bool (x :: v)) 0
              - nth i (sort_by Qle_bool (x :: v)) 0) * g)
    /\ (i <= length v)%nat
    /\ 0 <= g /\ g < 1
    /\ inject_Z (Z.of_nat i) + g == inject_Z (Z.of_nat (length v)) * q.
Proof.
  intros [Hq0 Hq1].
  set (h := inject_Z (Z.of_nat (length v)) * q).
  assert (Hn : 0 <= inject_Z (Z.of_nat (length v)))
    by (change 0 with (inject_Z 0); rewrite <- Zle_Qle; lia).
  assert (Hh0 : 0 <= h) by (unfold h; apply Qmult_le_0_compat; assumption).
  assert (Hh1 : h <= inject_Z (Z.of_nat (length v))) by (unfold h; nra).
  assert (Hf0 : (0 <= Qfloor h)%Z).
  { change 0%Z with (Qfloor 0). now apply Qfloor_resp_le. }
  assert (Hf1 : (Qfloor h <= Z.of_nat (length v))%Z).
  { rewrite <- (Qfloor_Z (Z.of_nat (length v))). now apply Qfloor_resp_le. }
  exists (Z.to_nat (Qfloor h)), (h - inject_Z (Qfloor h)).
  split; [| split; [lia | split; [| split]]].
  - unfold quantile. rewrite length_sort_by.
    change (length (x :: v) - 1)%nat with (S (length v) - 1)%nat.
    replace (S (length v) - 1)%nat with (length v) by lia.
    reflexivity.
  - pose proof (Qfloor_le h). lra.
  - pose proof (Qlt_floor h) as L. rewrite inject_Z_plus in L.
    change (inject_Z 1) with 1 in L. lra.
  - rewrite Z2Nat.id by exact Hf0. fold h. ring.
Qed.

Lemma quantile_between (x : Q) (v : list Q) (i : nat) (g : Q) :
  (i <= length v)%nat -> 0 <= g -> g < 1 ->
  let s := sort_by Qle_bool (x :: v) in
  let lo := nth i s 0 in
  let hi := nth (Nat.min (S i) (length v)) s 0 in
  lo <= lo + (hi - lo) * g /\ lo + (hi - lo) * g <= hi.
Proof.
  intros Hi Hg0 Hg1 s lo hi.
  assert (Hlohi : lo <= hi).
  { apply StronglySorted_nth; [apply sort_by_Qle_sorted | |].
    - apply Nat.min_glb; [apply Nat.le_succ_diag_r | exact Hi].
    - unfold s. rewrite length_sort_by. simpl length.
      apply Nat.lt_succ_r, Nat.le_min_r. }
  split; nra.
Qed.

Lemma sorted_nth_bounds (x : Q) (v : list Q) (i : nat) :
  (i <= length v)%nat ->
  Qminimum x v <= nth i (sort_by Qle_bool (x :: v)) 0 <= Qmaximum x v.
Proof.
  intro Hi. apply batch_bounds.
  apply (Permutation_in _ (sort_by_perm Qle_bool (x :: v))).
  apply nth_In. rewrite length_sort_by. simpl. lia.
Qed.

Lemma quantile_ordered (x : Q) (v : list Q) (q1 q2 : Q) :
  0 <= q1 -> q1 <= q2 -> q2 <= 1 ->
  exists a b,
    quantile (x :: v) q1 = Fin a
    /\ quantile (x :: v) q2 = Fin b
    /\ a <= b
    /\ Qminimum x v <= a
    /\ b <= Qmaximum x v.
Proof.
  intros H0 H12 H1.
  destruct (quantile_form x v q1) as (i1 & g1 & E1 & Hi1 & Hg1 & Hg1' & Hh1);
    [split; lra |].
  destruct (quantile_form x v q2) as (i2 & g2 & E2 & Hi2 & Hg2 & Hg2' & Hh2);
    [split; lra |].
  eexists _, _. split; [exact E1 | split; [exact E2 |]].
  destruct (quantile_between x v i1 g1 Hi1 Hg1 Hg1') as [A1 A2].
  destruct (quantile_between x v i2 g2 Hi2 Hg2 Hg2') as [B1 B2].
  cbv zeta in A1, A2, B1, B2.
  set (s := sort_by Qle_bool (x :: v)) in *.
  assert (Hn : 0 <= inject_Z (Z.of_nat (length v)))
    by (change 0 with (inject_Z 0); rewrite <- Zle_Qle; lia).
  assert (Hh : inject_Z (Z.of_nat i1) + g1 <= inject_Z (Z.of_nat i2) + g2)
    by (rewrite Hh1, Hh2; nra).
  assert (Hi : (i1 <= i2)%nat).
  { destruct (Nat.le_gt_cases i1 i2) as [L | L]; [exact L | exfalso].
    assert (G : inject_Z (Z.of_nat i2) + 1 <= inject_Z (Z.of_nat i1)).
    { change 1 with (inject_Z 1). rewrite <- inject_Z_plus, <- Zle_Qle.
      lia. }
    lra. }
  split; [| split].
  - destruct (Nat.eq_dec i1 i2) as [<- | Hne].
    + assert (Hg : g1 <= g2) by lra.
      assert (Hd : 0 <= nth (Nat.min (S i1) (length v)) s 0 - nth i1 s 0)
        by lra.
      nra.
    + apply Qle_trans with (nth (Nat.min (S i1) (length v)) s 0);
        [exact A2 |].
      apply Qle_trans with (nth i2 s 0); [| exact B1].
      apply StronglySorted_nth; [apply sort_by_Qle_sorted | lia |].
      unfold s. rewrite length_sort_by. simpl. lia.
  - apply Qle_trans with (nth i1 s 0); [| exact A1].
    now apply sorted_nth_bounds.
  - eapply Qle_trans; [exact B2 |]. apply sorted_nth_bounds. lia.
Qed.

(** Quantiles are ordered like their levels and stay within the batch: for
    levels [q1 <= q2] between 0 and 1 the quantile at [q1] is at most the
    one at [q2], and both lie between the batch's minimum and maximum. *)
Theorem quantile_monotone (x : Q) (v : list Q) (q1 q2 : Q) :
  0 <= q1 -> q1 <= q2 -> q2 <= 1 ->
  exists a b,
    quantile (x :: v) q1 = Fin a
    /\ quantile (x :: v) q2 = Fin b
    /\ a <= b
    /\ Qminimum x v <= a
    /\ b <= Qmaximum x v.
Proof. apply quantile_ordered. Qed.

Lemma quantile_monotone_witness :
  exists a b,
    quantile [0; 1 # 2; 1] (1 # 2) = Fin a
    /\ quantile [0; 1 # 2; 1] (9 # 10) = Fin b
    /\ a <= b
    /\ Qminimum 0 [1 # 2; 1] <= a
    /\ b <= Qmaximum 0 [1 # 2; 1].
Proof.
  apply (quantile_monotone 0 [1 # 2; 1] (1 # 2) (9 # 10)); discriminate.
Defined.

(** Tiering fails exactly on a tie of the two percentiles: the 50th is
    never above the 90th, the cut raises [ValueError] when they are equal
    and assigns tiers when the 50th is strictly smaller. *)
Theorem tiering_fails_iff_tied (x : Q) (v : list Q) :
  exists p50 p90,
    quantile (x :: v) (1 # 2) = Fin p50
    /\ quantile (x :: v) (9 # 10) = Fin p90
    /\ p50 <= p90
    /\ (risk_levels (x :: v) = Err ValueError <-> p50 == p90)
    /\ ((exists levels, risk_levels (x :: v) = Ok levels) <-> p50 < p90).
Proof.
  destruct (quantile_ordered x v (1 # 2) (9 # 10))
    as (a & b & Ea & Eb & Hab & _); try discriminate.
  exists a, b. split; [exact Ea | split; [exact Eb | split; [exact Hab |]]].
  unfold risk_levels. rewrite Ea, Eb, cut_percentiles.
  assert (Qle_bool a b = true) as -> by (now apply Qle_bool_iff).
  cbn [andb].
  destruct (Qeq_bool a b) eqn:E; cbn [negb].
  - apply Qeq_bool_iff in E. split; split; intro H; auto.
    + destruct H as (levels & H). discriminate H.
    + lra.
  - apply Qeq_bool_neq in E. split; split; intro H.
    + discriminate H.
    + contradiction.
    + destruct (Qlt_le_dec a b) as [L | L]; [exact L |].
      exfalso. apply E. lra.
    + eexists. reflexivity.
Qed.

(** ** Cell 8: how many rows each tier gets *)

Lemma filter_length_perm {A : Type} (f : A -> bool) (l1 l2 : list A) :
  Permutation l1 l2 -> length (filter f l1) = length (filter f l2).
Proof.
  induction 1 as [| a l1 l2 _ IH | a b l | l1 l2 l3 _ IH1 _ IH2]; simpl.
  - reflexivity.
  - destruct (f a); simpl; now rewrite IH.
  - destruct (f a), (f b); reflexivity.
  - now rewrite IH1.
Qed.

Lemma firstn_below_nth (s : list Q) (i : nat) :
  StronglySorted Qle s -> (i < length s)%nat ->
  Forall (fun z => z <= nth i s 0) (firstn (S i) s).
Proof.
  intro H. revert i. induction H as [| a t _ IH Hall]; intros i Hi;
    simpl in Hi; [lia |].
  destruct i as [| i].
  - simpl. repeat constructor. apply Qle_refl.
  - change (firstn (S (S i)) (a :: t)) with (a :: firstn (S i) t).
    constructor.
    + simpl. rewrite Forall_forall in Hall. apply Hall, nth_In. lia.
    + simpl. apply IH. lia.
Qed.

(** At least [i + 1] values of a batch are at most any bound that is not
    below the value at position [i] of the sorted batch. *)
Lemma count_at_most (v : list Q) (i : nat) (c : Q) :
  (i < length v)%nat ->
  nth i (sort_by Qle_bool v) 0 <= c ->
  (S i <= length (filter (fun z => Qle_bool z c) v))%nat.
Proof.
  intros Hi Hc.
  rewrite <- (filter_length_perm _ _ _ (sort_by_perm Qle_bool v)).
  set (s := sort_by Qle_bool v) in *.
  assert (Hs : (i < length s)%nat) by (unfold s; now rewrite length_sort_by).
  rewrite <- (firstn_skipn (S i) s) at 1.
  rewrite filter_app, length_app.
  assert (E : filter (fun z => Qle_bool z c) (firstn (S i) s)
              = firstn (S i) s).
  { apply forallb_filter_id. apply forallb_forall. intros z Hz.
    pose proof (firstn_below_nth s i (sort_by_Qle_sorted v) Hs) as F.
    rewrite Forall_forall in F. apply Qle_bool_iff.
    eapply Qle_trans; [apply F, Hz | exact Hc]. }
  rewrite E, length_firstn. lia.
Qed.

Lemma count_level_tiers (a b : Q) (risk : list Q) :
  a < b ->
  count_level LowRisk (map (fun z => Some (tier_of a b z)) risk)
  = length (filter (fun z => Qle_bool z a) risk)
  /\ (count_level HighRisk (map (fun z => Some (tier_of a b z)) risk)
      + length (filter (fun z => Qle_bool z b) risk))%nat = length risk
  /\ (count_level LowRisk (map (fun z => Some (tier_of a b z)) risk)
      + count_level ModerateRisk (map (fun z => Some (tier_of a b z)) risk)
      + count_level HighRisk (map (fun z => Some (tier_of a b z)) risk))%nat
     = length risk.
Proof.
  intro Hab. unfold count_level.
  induction risk as [| z risk (IH1 & IH2 & IH3)]; [simpl; auto |].
  assert (C : (tier_of a b z = LowRisk
               /\ Qle_bool z a = true /\ Qle_bool z b = true)
              \/ (tier_of a b z = ModerateRisk
                  /\ Qle_bool z a = false /\ Qle_bool z b = true)
              \/ (tier_of a b z = HighRisk
                  /\ Qle_bool z a = false /\ Qle_bool z b = false)).
  { unfold tier_of. destruct (Qle_bool z a) eqn:Ea.
    - left. repeat split. apply Qle_bool_iff. apply Qle_bool_iff in Ea. lra.
    - destruct (Qle_bool z b); auto. }
  cbn [map filter].
  destruct C as [(-> & -> & ->) | [(-> & -> & ->) | (-> & -> & ->)]];
    cbn [risk_level_eqb length]; lia.
Qed.

Lemma Fin_injective (a b : Q) : Fin a = Fin b -> a = b.
Proof. intro H. now injection H. Qed.

Lemma position_bound (n i : nat) (g q : Q) (num den : Z) :
  g < 1 ->
  inject_Z (Z.of_nat i) + g == inject_Z (Z.of_nat n) * q ->
  q == inject_Z num / inject_Z den -> (0 < den)%Z ->
  (num * Z.of_nat n < den * (Z.of_nat i + 1))%Z.
Proof.
  intros Hg Hh Hq Hden.
  assert (Hd : 0 < inject_Z den)
    by (change 0 with (inject_Z 0); now rewrite <- Zlt_Qlt).
  assert (H : inject_Z (Z.of_nat n) * q < inject_Z (Z.of_nat i) + 1) by lra.
  rewrite Hq in H.
  assert (H' : inject_Z num * inject_Z (Z.of_nat n)
               < inject_Z den * (inject_Z (Z.of_nat i) + 1)).
  { apply Qmult_lt_l with (z := inject_Z den) in H; [| exact Hd].
    assert (E : inject_Z den
                * (inject_Z (Z.of_nat n) * (inject_Z num / inject_Z den))
                == inject_Z num * inject_Z (Z.of_nat n))
      by (field; lra).
    now rewrite E in H. }
  change 1 with (inject_Z 1) in H'.
  rewrite <- inject_Z_plus, <- !inject_Z_mult in H'.
  now rewrite Zlt_Qlt.
Qed.

(** The sizes of the tiers when tiering succeeds: every row has one tier,
    at least half of the rows are Low Risk, and at most a tenth of the rows
    (rounded up to the next row) are High Risk. *)
Theorem tier_sizes (risk : list Q) (levels : list (option risk_level)) :
  risk_levels risk = Ok levels ->
  (count_level LowRisk levels + count_level ModerateRisk levels
   + count_level HighRisk levels = length risk)%nat
  /\ (length risk <= 2 * count_level LowRisk levels)%nat
  /\ (10 * count_level HighRisk levels <= length risk + 8)%nat.
Proof.
  intro H.
  destruct (risk_levels_Ok risk levels H) as (a & b & Ea & Eb & Hab & ->).
  destruct risk as [| x v]; [discriminate |].
  destruct (count_level_tiers a b (x :: v) Hab) as (C1 & C2 & C3).
  destruct (quantile_form x v (1 # 2)) as (i1 & g1 & E1 & Hi1 & Hg1 & Hg1' & Hh1);
    [split; discriminate |].
  destruct (quantile_form x v (9 # 10)) as (i2 & g2 & E2 & Hi2 & Hg2 & Hg2' & Hh2);
    [split; discriminate |].
  destruct (quantile_between x v i1 g1 Hi1 Hg1 Hg1') as [A1 _].
  destruct (quantile_between x v i2 g2 Hi2 Hg2 Hg2') as [B1 _].
  cbv zeta in A1, B1.
  rewrite Ea in E1. apply Fin_injective in E1. rewrite <- E1 in A1.
  rewrite Eb in E2. apply Fin_injective in E2. rewrite <- E2 in B1.
  assert (L1 : (S i1 <= length (filter (fun z => Qle_bool z a) (x :: v)))%nat)
    by (apply count_at_most; [simpl; lia | exact A1]).
  assert (L2 : (S i2 <= length (filter (fun z => Qle_bool z b) (x :: v)))%nat)
    by (apply count_at_most; [simpl; lia | exact B1]).
  pose proof (position_bound (length v) i1 g1 (1 # 2) 1 2 Hg1' Hh1) as P1.
  pose proof (position_bound (length v) i2 g2 (9 # 10) 9 10 Hg2' Hh2) as P2.
  assert (P1' : (1 * Z.of_nat (length v) < 2 * (Z.of_nat i1 + 1))%Z)
    by (apply P1; [reflexivity | lia]).
  assert (P2' : (9 * Z.of_nat (length v) < 10 * (Z.of_nat i2 + 1))%Z)
    by (apply P2; [reflexivity | lia]).
  simpl length in *.
  split; [exact C3 | split]; lia.
Qed.

Lemma tier_sizes_witness :
  exists levels,
    risk_levels three_risks = Ok levels
    /\ (count_level LowRisk levels + count_level ModerateRisk levels
        + count_level HighRisk levels = length three_risks)%nat
    /\ (length three_risks <= 2 * count_level LowRisk levels)%nat
    /\ (10 * count_level HighRisk levels <= length three_risks + 8)%nat.
Proof.
  eexists. split; [reflexivity |].
  apply (tier_sizes three_risks). reflexivity.
Defined.

(** ** Cells 8 and 9: the scored table *)

Lemma has_column_setitem_other (name other : string) (s : series)
  (df : frame) :
  other <> name ->
  has_column other (setitem name s df) = has_column other df.
Proof.
  intro H. apply has_column_ext. now apply lookup_setitem_other.
Qed.

(** Scoring writes the three score columns and nothing else: it needs one
    probability per row (otherwise [ValueError]), leaves every other column
    as it is and in place, and appends exactly those of the three names
    that the table did not have. *)
Theorem score_frame (prob_stay : list Q) (df : frame) :
  (length prob_stay <> n_rows df -> score prob_stay df = Err ValueError)
  /\ forall scored,
      score prob_stay df = Ok scored ->
      length prob_stay = n_rows df
      /\ lookup "Predicted_Prob_Stay" scored
         = Some (Floats (map Fin prob_stay))
      /\ (forall name, ~ In name score_names ->
                       lookup name scored = lookup name df)
      /\ columns scored
         = columns df
           ++ filter (fun n => negb (has_column n df)) score_names.
Proof.
  split.
  - intro Hne. unfold score, assign. simpl series_length.
    rewrite length_map.
    apply Nat.eqb_neq in Hne. now rewrite Hne.
  - intros scored H.
    destruct (score_Ok _ _ _ H) as (risk & levels & Hlen & _ & _ & ->).
    split; [exact Hlen | split; [| split]].
    + rewrite !lookup_setitem_other by names_differ.
      apply lookup_setitem_same.
    + intros name Hn. unfold score_names in Hn. simpl in Hn.
      rewrite !lookup_setitem_other; auto; intro E; apply Hn; subst; auto.
    + rewrite !columns_setitem.
      rewrite !has_column_setitem_other by names_differ.
      unfold score_names. simpl filter.
      destruct (has_column "Predicted_Prob_Stay" df),
        (has_column "Retention_Risk" df), (has_column "Risk_Level" df);
        simpl; rewrite <- ?app_assoc, ?app_nil_r; reflexivity.
Qed.

Lemma to_numeric_categorical (df : frame) (name : string)
  (c : list (option risk_level)) :
  lookup name df = Some (Categorical c) -> to_numeric df = Err ValueError.
Proof.
  induction df as [| [n s] rest IH]; simpl; [discriminate |].
  destruct (String.eqb name n).
  - intro H. injection H as ->. reflexivity.
  - intro H. destruct s; [| reflexivity]. now rewrite (IH H).
Qed.

Lemma categorical_feature_raises (fsqrt : Q -> Q) (df : frame)
  (name : string) (c : list (option risk_level)) (yv : series) :
  lookup "Retained" df = Some yv ->
  name <> "Retained" -> name <> "EmployeeNumber" ->
  lookup name df = Some (Categorical c) ->
  prepare fsqrt df = Err ValueError.
Proof.
  intros Hy H1 H2 Hc. unfold prepare.
  destruct (drop ["Retained"; "EmployeeNumber"] Ignore df) as [X0 | |] eqn:Hd;
    try discriminate.
  cbn [bind]. unfold getitem. rewrite Hy. cbn [bind].
  assert (Lx : lookup name X0 = Some (Categorical c)).
  { rewrite (lookup_drop _ _ _ _ name Hd). simpl.
    apply String.eqb_neq in H1, H2. now rewrite H1, H2. }
  unfold fit_transform. now rewrite (to_numeric_categorical X0 name c Lx).
Qed.

(** The cells cannot be run again on a scored table: its categorical
    [Risk_Level] column is among the features, so the standardization of
    cell 3 raises [ValueError], directly and after cell 2 has been run
    again. *)
Theorem prepare_after_scoring_raises (fsqrt : Q -> Q) (prob_stay : list Q)
  (df scored : frame) :
  has_column "Retained" df = true ->
  score prob_stay df = Ok scored ->
  prepare fsqrt scored = Err ValueError
  /\ forall again,
       feature_engineer scored = Ok again ->
       prepare fsqrt again = Err ValueError.
Proof.
  intros Hy H.
  destruct (score_Ok _ _ _ H) as (risk & levels & _ & _ & _ & ->).
  set (scored := setitem "Risk_Level" _ _).
  apply has_column_lookup in Hy.
  destruct (lookup "Retained" df) as [yv |] eqn:Ly; [| contradiction].
  assert (L1 : lookup "Retained" scored = Some yv).
  { unfold scored. rewrite !lookup_setitem_other by names_differ. exact Ly. }
  assert (L2 : lookup "Risk_Level" scored = Some (Categorical levels))
    by apply lookup_setitem_same.
  split.
  - apply categorical_feature_raises with "Risk_Level" levels yv; auto;
      names_differ.
  - intros again He.
    destruct (feature_engineer_columns _ _ He) as (_ & _ & Hkeep).
    apply categorical_feature_raises with "Risk_Level" levels yv;
      try names_differ.
    + rewrite Hkeep; [exact L1 |].
      unfold derived_names. simpl. intuition discriminate.
    + rewrite Hkeep; [exact L2 |].
      unfold derived_names. simpl. intuition discriminate.
Qed.

Lemma prepare_after_scoring_raises_witness :
  exists scored,
    score [3 # 4; 1 # 2; 1 # 4] staff = Ok scored
    /\ prepare sample_sqrt scored = Err ValueError
    /\ forall again,
         feature_engineer scored = Ok again ->
         prepare sample_sqrt again = Err ValueError.
Proof.
  run_to scored (score [3 # 4; 1 # 2; 1 # 4] staff).
  exists scored. split; [exact H |].
  exact (prepare_after_scoring_raises sample_sqrt [3 # 4; 1 # 2; 1 # 4]
           staff scored eq_refl H).
Defined.

(** ** Cells 8 and 9: the extremes of the risk *)

Lemma risk_of_minimum (p : Q) (ps : list Q) (s : MinMaxScaler) :
  minmax_fit (p :: ps) = Ok s -> risk_of s (Qminimum p ps) == 1.
Proof.
  intro H. rewrite (risk_of_fit p ps s _ H). unfold Qdiv. ring.
Qed.

Lemma risk_of_maximum (p : Q) (ps : list Q) (s : MinMaxScaler) :
  minmax_fit (p :: ps) = Ok s ->
  Qminimum p ps < Qmaximum p ps ->
  risk_of s (Qmaximum p ps) == 0.
Proof.
  intros H Hlt. rewrite (risk_of_fit p ps s _ H).
  unfold handle_zeros_in_scale.
  destruct (Qeq_bool (Qmaximum p ps - Qminimum p ps) 0) eqn:E.
  - apply Qeq_bool_iff in E. lra.
  - field. lra.
Qed.

Lemma risk_of_flat (p : Q) (ps : list Q) (s : MinMaxScaler) (x : Q) :
  minmax_fit (p :: ps) = Ok s ->
  Qmaximum p ps <= Qminimum p ps ->
  In x (p :: ps) -> risk_of s x == 1.
Proof.
  intros H Hflat Hx. rewrite (risk_of_fit p ps s _ H).
  destruct (batch_bounds p ps x Hx) as [H1 H2].
  assert (x - Qminimum p ps == 0) as -> by lra.
  unfold Qdiv. ring.
Qed.

Lemma StronglySorted_last (l : list Q) (d y : Q) :
  StronglySorted (fun a b => b <= a) l -> In y l -> last l d <= y.
Proof.
  induction 1 as [| a t Ht IH Hall]; intro Hy; [contradiction |].
  destruct t as [| b t'].
  - destruct Hy as [<- | []]. simpl. apply Qle_refl.
  - change (last (a :: b :: t') d) with (last (b :: t') d).
    destruct Hy as [<- | Hy]; [| now apply IH].
    rewrite Forall_forall in Hall.
    apply Hall. clear. generalize b. induction t' as [| c t' IH]; intro b0.
    + now left.
    + right. apply IH.
Qed.

(** When tiering succeeds the probabilities of the batch are not all the
    same. *)
Lemma tiered_batch_spread (p : Q) (ps risk : list Q)
  (levels : list (option risk_level)) :
  retention_risk (p :: ps) = Ok risk ->
  risk_levels risk = Ok levels ->
  Qminimum p ps < Qmaximum p ps.
Proof.
  intros Hrisk Hlev.
  destruct (retention_risk_Ok p ps) as (s & Hfit & _ & _ & Hrisk').
  assert (Erisk : risk = map (risk_of s) (p :: ps)) by congruence.
  destruct (risk_levels_Ok _ _ Hlev) as (a & b & Ea & Eb & Hab & _).
  destruct (Qlt_le_dec (Qminimum p ps) (Qmaximum p ps)) as [L | L];
    [exact L | exfalso].
  assert (Hone : forall r, In r risk -> r == 1).
  { intros r Hr. rewrite Erisk in Hr. apply in_map_iff in Hr.
    destruct Hr as (z & <- & Hin). now apply (risk_of_flat p ps s z). }
  rewrite Erisk in Ea, Eb. cbn [map] in Ea, Eb.
  destruct (quantile_ordered (risk_of s p) (map (risk_of s) ps)
              (1 # 2) (9 # 10))
    as (a' & b' & Ea' & Eb' & _ & Hlo & Hhi); try discriminate.
  rewrite Ea in Ea'. apply Fin_injective in Ea'. subst a'.
  rewrite Eb in Eb'. apply Fin_injective in Eb'. subst b'.
  assert (H1 : Qminimum (risk_of s p) (map (risk_of s) ps) == 1).
  { apply Hone. rewrite Erisk. apply Qminimum_In. }
  assert (H2 : Qmaximum (risk_of s p) (map (risk_of s) ps) == 1).
  { apply Hone. rewrite Erisk. apply Qmaximum_In. }
  lra.
Qed.



(** ** What a successful run presupposes *)

Lemma n_samples_map2_transform (ps : list column_params) (m : matrix) :
  length ps = length m ->
  n_samples (map2 transform_column ps m) = n_samples m.
Proof.
  destruct ps as [| p ps], m as [| c m]; simpl; try discriminate; auto.
  intros _. unfold transform_column. apply length_map.
Qed.

Section RunFacts.

Variable fsqrt : Q -> Q.
Variable permutation : nat -> list nat.
Variable fit_resample : matrix -> series -> result (matrix * series).
Variable importances : nat -> matrix -> series -> list Q.
Variable model : Type.
Variable fit_calibrated : matrix -> series -> result model.
Variable predict_proba_stay : model -> matrix -> result (list Q).
Variable evaluate : model -> split_vars -> matrix -> series -> result unit.

Lemma run_stages (df out : frame) :
  run fsqrt permutation fit_resample importances model fit_calibrated
      predict_proba_stay evaluate df = Ok out ->
  exists engineered p st s prob_stay scored,
    feature_engineer df = Ok engineered
    /\ prepare fsqrt engineered = Ok p
    /\ split_and_balance permutation fit_resample (X_scaled p) (y p) = Ok st
    /\ select_features fsqrt permutation fit_resample importances p = Ok s
    /\ score prob_stay engineered = Ok scored
    /\ export scored = Ok out.
Proof.
  unfold run. intro H.
  inv_bind H. inv_bind H. inv_bind H. inv_bind H. inv_bind H. inv_bind H.
  inv_bind H. inv_bind H.
  exists x, x0, x1, x2, x5, x6. auto 10.
Qed.


End RunFacts.


(** ** Cell 2: when feature engineering can fail, and the promotion rate *)

Lemma series_binop_cases (f : cell -> cell -> cell) (a b : series) :
  (exists v, series_binop f a b = Ok v) \/ series_binop f a b = Err TypeError.
Proof. destruct a, b; simpl; eauto. Qed.

Lemma promotion_formula_cases (a b : series) :
  (exists v, promotion_formula a b = Ok v)
  \/ promotion_formula a b = Err TypeError.
Proof.
  unfold promotion_formula. destruct b as [ys | c]; simpl; [| now right].
  destruct a; simpl; eauto.
Qed.

Lemma derive_cases a b out formula df :
  (forall x y, (exists v, formula x y = Ok v) \/ formula x y = Err TypeError) ->
  (exists df', derive a b out formula df = Ok df')
  \/ derive a b out formula df = Err TypeError.
Proof.
  intro HF. unfold derive.
  destruct (has_column a df && has_column b df) eqn:E; [| eauto].
  apply andb_true_iff in E. destruct E as [Ea Eb].
  apply has_column_lookup in Ea, Eb. unfold getitem.
  destruct (lookup a df) as [x |]; [| contradiction].
  destruct (lookup b df) as [y |]; [| contradiction].
  cbn [bind]. destruct (HF x y) as [(v & ->) | ->]; cbn [bind]; eauto.
Qed.

Lemma derive_numeric a b out formula df :
  (forall xs ys, exists v, formula (Floats xs) (Floats ys) = Ok v) ->
  not_categorical a df -> not_categorical b df ->
  exists df', derive a b out formula df = Ok df'.
Proof.
  intros HF Na Nb. unfold derive.
  destruct (has_column a df && has_column b df) eqn:E; [| eauto].
  unfold getitem.
  destruct (lookup a df) as [[xs | c] |] eqn:La.
  - destruct (lookup b df) as [[ys | c] |] eqn:Lb.
    + cbn [bind]. destruct (HF xs ys) as (v & ->). cbn [bind]. eauto.
    + exfalso. now apply (Nb c).
    + apply andb_true_iff in E. destruct E as [_ Eb].
      apply has_column_lookup in Eb. contradiction.
  - exfalso. now apply (Na c).
  - apply andb_true_iff in E. destruct E as [Ea _].
    apply has_column_lookup in Ea. contradiction.
Qed.

(** The presence checks rule out [KeyError]: feature engineering either
    succeeds or raises [TypeError], and it succeeds on every table whose
    six source columns, where present, are numeric. *)
Theorem feature_engineer_failures (df : frame) :
  ((exists engineered, feature_engineer df = Ok engineered)
   \/ feature_engineer df = Err TypeError)
  /\ ((forall name, In name optional_sources -> not_categorical name df) ->
      exists engineered, feature_engineer df = Ok engineered).
Proof.
  unfold feature_engineer.
  rewrite Engagement_Index_derive.
  split.
  - destruct (derive_cases "JobSatisfaction" "WorkLifeBalance"
                "Engagement_Index" series_mul df (series_binop_cases cmul))
      as [(df1 & ->) | ->]; [| now right].
    cbn [bind]. rewrite Promotion_Rate_derive.
    destruct (derive_cases "YearsSinceLastPromotion" "YearsAtCompany"
                "Promotion_Rate" promotion_formula df1
                promotion_formula_cases)
      as [(df2 & ->) | ->]; [| now right].
    cbn [bind]. rewrite Overtime_SensitiveRole_derive.
    apply derive_cases. apply series_binop_cases.
  - intro Hnum.
    assert (Hmul : forall xs ys, exists v,
                 series_mul (Floats xs) (Floats ys) = Ok v)
      by (intros; eexists; reflexivity).
    assert (Hprom : forall xs ys, exists v,
                 promotion_formula (Floats xs) (Floats ys) = Ok v)
      by (intros; eexists; reflexivity).
    destruct (derive_numeric "JobSatisfaction" "WorkLifeBalance"
                "Engagement_Index" series_mul df Hmul)
      as (df1 & H1); [apply Hnum; simpl; auto | apply Hnum; simpl; auto |].
    rewrite H1. cbn [bind]. apply derive_Ok in H1.
    assert (L1 : forall n, n <> "Engagement_Index" ->
                           lookup n df1 = lookup n df)
      by (intros; eapply derived_lookup_other; eauto).
    rewrite Promotion_Rate_derive.
    destruct (derive_numeric "YearsSinceLastPromotion" "YearsAtCompany"
                "Promotion_Rate" promotion_formula df1 Hprom)
      as (df2 & H2).
    { intro c. rewrite L1 by names_differ. apply Hnum. simpl. auto. }
    { intro c. rewrite L1 by names_differ. apply Hnum. simpl. auto 6. }
    rewrite H2. cbn [bind]. apply derive_Ok in H2.
    assert (L2 : forall n, n <> "Promotion_Rate" ->
                           lookup n df2 = lookup n df1)
      by (intros; eapply derived_lookup_other; eauto).
    rewrite Overtime_SensitiveRole_derive.
    apply derive_numeric; [exact Hmul | |].
    { intro c. rewrite L2, L1 by names_differ. apply Hnum. simpl. auto 8. }
    { intro c. rewrite L2, L1 by names_differ. apply Hnum. simpl. auto 8. }
Qed.

Lemma map2_cdiv_finite (a b : list Q) :
  Forall2 (fun x t => 0 <= x <= t) a b ->
  map2 cdiv (map Fin a) (map (fun c => cadd c (Fin 1)) (map Fin b))
  = map Fin (map2 (fun x t => x / (t + 1)) a b)
  /\ Forall (fun q => 0 <= q < 1) (map2 (fun x t => x / (t + 1)) a b).
Proof.
  induction 1 as [| x t a b [Hx Hxt] _ [IH1 IH2]]; simpl; [auto |].
  assert (Ht : 0 < t + 1) by lra.
  destruct (Qeq_bool (t + 1) 0) eqn:E.
  - apply Qeq_bool_iff in E. lra.
  - rewrite IH1. split; [reflexivity |].
    constructor; [| exact IH2].
    split.
    + apply Qle_shift_div_l; [exact Ht | lra].
    + apply Qlt_shift_div_r; [exact Ht | lra].
Qed.



(** ** Cell 8: the risk is relative to the batch *)

Lemma Qmin_affine (k c x y : Q) :
  0 < k -> Qmin (k * x + c) (k * y + c) == k * Qmin x y + c.
Proof.
  intro Hk.
  destruct (Q.min_spec x y) as [[H E] | [H E]]; rewrite E.
  - apply Q.min_l. nra.
  - apply Q.min_r. nra.
Qed.

Lemma Qmax_affine (k c x y : Q) :
  0 < k -> Qmax (k * x + c) (k * y + c) == k * Qmax x y + c.
Proof.
  intro Hk.
  destruct (Q.max_spec x y) as [[H E] | [H E]]; rewrite E.
  - apply Q.max_r. nra.
  - apply Q.max_l. nra.
Qed.

Lemma Qminimum_affine (k c x : Q) (l : list Q) :
  0 < k ->
  Qminimum (k * x + c) (map (fun z => k * z + c) l)
  == k * Qminimum x l + c.
Proof.
  intro Hk. induction l as [| a l IH]; simpl; [reflexivity |].
  fold (Qminimum x l).
  fold (Qminimum (k * x + c) (map (fun z => k * z + c) l)).
  rewrite IH. now apply Qmin_affine.
Qed.

Lemma Qmaximum_affine (k c x : Q) (l : list Q) :
  0 < k ->
  Qmaximum (k * x + c) (map (fun z => k * z + c) l)
  == k * Qmaximum x l + c.
Proof.
  intro Hk. induction l as [| a l IH]; simpl; [reflexivity |].
  fold (Qmaximum x l).
  fold (Qmaximum (k * x + c) (map (fun z => k * z + c) l)).
  rewrite IH. now apply Qmax_affine.
Qed.

Lemma scaled_ratio (k x lo hi x' lo' hi' : Q) :
  0 < k -> lo <= x <= hi ->
  x' - lo' == k * (x - lo) -> hi' - lo' == k * (hi - lo) ->
  (x' - lo') / handle_zeros_in_scale (hi' - lo')
  == (x - lo) / handle_zeros_in_scale (hi - lo).
Proof.
  intros Hk [H1 H2] Ex Ed. unfold handle_zeros_in_scale.
  destruct (Qeq_bool (hi - lo) 0) eqn:E; destruct (Qeq_bool (hi' - lo') 0) eqn:E'.
  - apply Qeq_bool_iff in E. rewrite Ex.
    assert (x - lo == 0) as -> by lra. unfold Qdiv. ring.
  - apply Qeq_bool_iff in E. apply Qeq_bool_neq in E'.
    exfalso. apply E'. rewrite Ed, E. ring.
  - apply Qeq_bool_neq in E. apply Qeq_bool_iff in E'.
    exfalso. apply E. rewrite Ed in E'.
    apply Qmult_integral in E'. destruct E' as [E' | E']; [lra | exact E'].
  - apply Qeq_bool_neq in E. rewrite Ex, Ed. field. split; [exact E | lra].
Qed.



(** ** The number of rows through the pipeline *)

Lemma lookup_all_length (n : nat) (df : frame) (name : string) (s : series) :
  Forall (fun c => series_length (snd c) = n) df ->
  lookup name df = Some s -> series_length s = n.
Proof.
  induction 1 as [| [m s0] rest Hhd _ IH]; simpl; [discriminate |].
  destruct (String.eqb name m); [| exact IH].
  intro E. injection E as <-. exact Hhd.
Qed.

Lemma setitem_all_length (n : nat) (name : string) (s : series) (df : frame) :
  Forall (fun c => series_length (snd c) = n) df ->
  series_length s = n ->
  Forall (fun c => series_length (snd c) = n) (setitem name s df).
Proof.
  intros Hr Hs.
  induction Hr as [| [m s0] rest Hhd Hr IH]; simpl.
  - repeat constructor. exact Hs.
  - destruct (String.eqb name m).
    + constructor; [exact Hs | exact Hr].
    + constructor; [exact Hhd | exact IH].
Qed.

Lemma n_rows_setitem (name : string) (s : series) (df : frame) :
  series_length s = n_rows df -> n_rows (setitem name s df) = n_rows df.
Proof.
  intro Hs. destruct df as [| [m s0] rest]; simpl; [exact Hs |].
  destruct (String.eqb name m); simpl; [exact Hs | reflexivity].
Qed.

Lemma setitem_rectangular (name : string) (s : series) (df : frame) :
  rectangular df -> series_length s = n_rows df ->
  rectangular (setitem name s df) /\ n_rows (setitem name s df) = n_rows df.
Proof.
  intros Hr Hs. split; [| now apply n_rows_setitem].
  unfold rectangular. rewrite n_rows_setitem by exact Hs.
  now apply setitem_all_length.
Qed.

Lemma length_map2_equal {A B C : Type} (f : A -> B -> C) (l1 : list A)
  (l2 : list B) (n : nat) :
  length l1 = n -> length l2 = n -> length (map2 f l1 l2) = n.
Proof.
  intros H1 H2. rewrite length_map2_same; congruence.
Qed.

Lemma series_binop_length (f : cell -> cell -> cell) (a b v : series)
  (n : nat) :
  series_binop f a b = Ok v ->
  series_length a = n -> series_length b = n -> series_length v = n.
Proof.
  destruct a as [xs | c], b as [ys | c']; simpl; try discriminate.
  intros H H1 H2. injection H as <-. simpl. now apply length_map2_equal.
Qed.

Lemma promotion_formula_length (a b v : series) (n : nat) :
  promotion_formula a b = Ok v ->
  series_length a = n -> series_length b = n -> series_length v = n.
Proof.
  unfold promotion_formula. intros H H1 H2. inv_bind H.
  apply (series_binop_length cdiv a x v n H H1).
  destruct b as [ys | c]; simpl in Hx; [| discriminate].
  injection Hx as <-. simpl. now rewrite length_map.
Qed.

Lemma derived_rectangular a b out formula df df' :
  (forall x y v n, formula x y = Ok v -> series_length x = n ->
                   series_length y = n -> series_length v = n) ->
  derived a b out formula df df' ->
  rectangular df -> rectangular df' /\ n_rows df' = n_rows df.
Proof.
  intros HF [x y v Ha Hb Hf | _] Hr; [| auto].
  apply setitem_rectangular; [exact Hr |].
  apply (HF x y v (n_rows df) Hf);
    eapply lookup_all_length; eauto.
Qed.

(** Feature engineering keeps the table rectangular and its number of
    rows: every derived column has one value per row. *)
Lemma feature_engineer_rectangular (df df' : frame) :
  rectangular df -> feature_engineer df = Ok df' ->
  rectangular df' /\ n_rows df' = n_rows df.
Proof.
  intros Hr H.
  destruct (feature_engineer_Ok _ _ H) as (df1 & df2 & H1 & H2 & H3).
  destruct (derived_rectangular _ _ _ _ _ _ (series_binop_length cmul) H1 Hr)
    as [R1 N1].
  destruct (derived_rectangular _ _ _ _ _ _ promotion_formula_length H2 R1)
    as [R2 N2].
  destruct (derived_rectangular _ _ _ _ _ _ (series_binop_length cmul) H3 R2)
    as [R3 N3].
  split; [exact R3 | congruence].
Qed.

Lemma length_series_rows (idx : list nat) (s : series) :
  series_length (series_rows idx s) = length idx.
Proof. destruct s; simpl; unfold take_rows; apply length_map. Qed.

Lemma setitem_nonempty (name : string) (s : series) (df : frame) :
  setitem name s df <> [].
Proof.
  destruct df as [| [m s0] rest]; simpl; [discriminate |].
  destruct (String.eqb name m); discriminate.
Qed.

Lemma n_rows_sorted (idx : list nat) (df : frame) :
  df <> [] ->
  n_rows (map (fun c => (fst c, series_rows idx (snd c))) df) = length idx.
Proof.
  destruct df as [| [m s] rest]; [contradiction |].
  intros _. simpl. apply length_series_rows.
Qed.

Section RowsPreserved.

Variable fsqrt : Q -> Q.
Variable permutation : nat -> list nat.
Variable fit_resample : matrix -> series -> result (matrix * series).
Variable importances : nat -> matrix -> series -> list Q.
Variable model : Type.
Variable fit_calibrated : matrix -> series -> result model.
Variable predict_proba_stay : model -> matrix -> result (list Q).
Variable evaluate : model -> split_vars -> matrix -> series -> result unit.

(** The exported table has exactly as many rows as the table that was
    read, in every column. *)
Theorem run_preserves_rows (df out : frame) :
  rectangular df ->
  run fsqrt permutation fit_resample importances model fit_calibrated
      predict_proba_stay evaluate df = Ok out ->
  rectangular out /\ n_rows out = n_rows df.
Proof.
  intros Hr H.
  destruct (run_stages fsqrt permutation fit_resample importances model
              fit_calibrated predict_proba_stay evaluate df out H)
    as (engineered & p & st & s & prob & scored & He & _ & _ & _ & Hsc & Hx).
  destruct (feature_engineer_rectangular df engineered Hr He) as [Re Ne].
  destruct (score_Ok _ _ _ Hsc) as (risk & levels & Hlen & Hrisk & Hlev & ->).
  destruct (retention_risk_range _ _ Hrisk) as [Hlr _].
  destruct (risk_levels_Ok _ _ Hlev) as (a & b & _ & _ & _ & ->).
  set (df1 := setitem "Predicted_Prob_Stay" _ engineered) in *.
  destruct (setitem_rectangular "Predicted_Prob_Stay"
              (Floats (map Fin prob)) engineered Re) as [R1 N1].
  { simpl. now rewrite length_map. }
  fold df1 in R1, N1.
  set (df2 := setitem "Retention_Risk" _ df1) in *.
  destruct (setitem_rectangular "Retention_Risk"
              (Floats (map Fin risk)) df1 R1) as [R2 N2].
  { simpl. rewrite length_map. congruence. }
  fold df2 in R2, N2.
  set (scored := setitem "Risk_Level" _ df2) in *.
  destruct (setitem_rectangular "Risk_Level"
              (Categorical (map (fun x => Some (tier_of a b x)) risk))
              df2 R2) as [R3 N3].
  { simpl. rewrite length_map. congruence. }
  fold scored in R3, N3.
  assert (LR : lookup "Retention_Risk" scored = Some (Floats (map Fin risk))).
  { unfold scored. rewrite lookup_setitem_other by names_differ.
    apply lookup_setitem_same. }
  apply (export_Ok _ _ _ LR) in Hx.
  set (idx := sort_index (map Fin risk)) in *.
  assert (Hidx : length idx = n_rows df).
  { pose proof (sort_index_perm (map Fin risk)) as G.
    apply Permutation_length in G. fold idx in G.
    rewrite length_seq, length_map in G. congruence. }
  assert (Hall : Forall (fun c => series_length (snd c) = n_rows df) out).
  { subst out. apply Forall_forall. intros c Hc. apply in_map_iff in Hc.
    destruct Hc as (c0 & <- & _). simpl.
    now rewrite length_series_rows. }
  assert (Hn : n_rows out = n_rows df).
  { rewrite Hx, <- Hidx. apply n_rows_sorted. apply setitem_nonempty. }
  split; [| exact Hn]. unfold rectangular. now rewrite Hn.
Qed.

End RowsPreserved.

Lemma staff_rectangular : rectangular staff.
Proof. repeat constructor. Qed.

Lemma run_preserves_rows_witness :
  exists out,
    sample_run staff = Ok out
    /\ rectangular out /\ n_rows out = n_rows staff.
Proof.
  run_to out (sample_run staff).
  exists out. split; [exact H |].
  exact (run_preserves_rows sample_sqrt sample_permutation sample_resample
           sample_importances unit sample_fit sample_predict sample_evaluate
           staff out staff_rectangular H).
Defined.

(** ** Cell 5: one round of the elimination *)

Lemma Sorted_weaken {A : Type} (R1 R2 : A -> A -> Prop) (l : list A) :
  (forall a b, R1 a b -> R2 a b) -> Sorted R1 l -> Sorted R2 l.
Proof.
  intros HR H. induction H as [| a l _ IH Hhd]; constructor; [exact IH |].
  destruct Hhd; constructor. now apply HR.
Qed.

Lemma argsort_head_least (v : list Q) (r : nat) (rest : list nat) :
  argsort v = r :: rest -> forall w, In w v -> nth r v 0 <= w.
Proof.
  unfold argsort. intros E w Hw.
  set (pairs := sort_by (fun a b => Qle_bool (snd a) (snd b)) (enumerate v))
    in *.
  assert (Hperm : Permutation pairs (enumerate v)) by apply sort_by_perm.
  assert (Hvals : take_rows 0 (map fst pairs) v = map snd pairs)
    by (now apply take_rows_of_pairs).
  assert (Hsorted : StronglySorted Qle (map snd pairs)).
  { apply Sorted_StronglySorted; [intros a b c; apply Qle_trans |].
    apply Sorted_map.
    apply Sorted_weaken
      with (R1 := fun a b : nat * Q => Qle_bool (snd a) (snd b) = true).
    - intros a b. apply Qle_bool_iff.
    - apply (sort_by_sorted (fun a b : nat * Q => Qle_bool (snd a) (snd b))).
      intros a b. apply Qle_bool_total. }
  assert (Hin : In w (map snd pairs)).
  { apply (Permutation_in w (Permutation_sym (Permutation_map snd Hperm))).
    unfold enumerate. rewrite map_snd_combine by (now rewrite length_seq).
    exact Hw. }
  rewrite <- Hvals, E in Hsorted, Hin. simpl in Hsorted, Hin.
  apply StronglySorted_inv in Hsorted. destruct Hsorted as [_ Hall].
  destruct Hin as [<- | Hin]; [apply Qle_refl |].
  rewrite Forall_forall in Hall. now apply Hall.
Qed.

Lemma nth_set_false_other (f i : nat) (support : list bool) :
  i <> f -> nth i (set_false f support) false = nth i support false.
Proof.
  revert f i. induction support as [| b t IH]; intros [| f] [| i] H; simpl;
    try reflexivity; try congruence.
  apply IH. congruence.
Qed.

Section EliminationRound.

Variable importances : nat -> matrix -> series -> list Q.

Hypothesis importances_shape :
  forall round Xs y, length (importances round Xs y) = n_features Xs.

(** While more than 20 columns remain, a round of the elimination clears
    exactly one column: a remaining column whose importance, as the forest
    of that round reports it, is the least; every other column keeps its
    state. *)
Theorem rfe_round_drops_least (M : matrix) (labels : series)
  (fuel round : nat) (support : list bool) :
  length support = n_features M ->
  (20 < count_true support)%nat ->
  exists r f,
    hd_error (argsort (importances round (select support M) labels)) = Some r
    /\ nth_error (features_of support) r = Some f
    /\ nth f support false = true
    /\ (forall w, In w (importances round (select support M) labels) ->
          nth r (importances round (select support M) labels) 0 <= w)
    /\ rfe_loop importances (S fuel) round M labels support
       = rfe_loop importances fuel (S round) M labels (set_false f support)
    /\ S (count_true (set_false f support)) = count_true support
    /\ forall i, i <> f ->
         nth i (set_false f support) false = nth i support false.
Proof.
  intros Hlen Hcount.
  set (imp := importances round (select support M) labels).
  assert (Himp : length imp = count_true support).
  { unfold imp. rewrite importances_shape. unfold n_features.
    apply length_select_mask. exact Hlen. }
  pose proof (argsort_perm imp) as Hperm. rewrite Himp in Hperm.
  assert (Hrange : Forall (fun r => (r < length (features_of support))%nat)
                          (argsort imp)).
  { rewrite length_features_of. apply Forall_forall. intros r Hr.
    apply (Permutation_in _ Hperm) in Hr. apply in_seq in Hr. lia. }
  destruct (argsort imp) as [| r rest] eqn:Eranks.
  { apply Permutation_length in Hperm. rewrite length_seq in Hperm.
    simpl in Hperm. lia. }
  assert (Hr : (r < length (features_of support))%nat)
    by (now inversion Hrange).
  destruct (nth_error (features_of support) r) as [f |] eqn:Ef;
    [| apply nth_error_None in Ef; lia].
  assert (Hf : nth f support false = true).
  { apply features_of_true. eapply nth_error_In. exact Ef. }
  exists r, f.
  split; [reflexivity | split; [exact Ef | split; [exact Hf |]]].
  split; [now apply (argsort_head_least imp r rest) |].
  split; [| split; [now apply count_true_set_false |
                    intros; now apply nth_set_false_other]].
  rewrite rfe_loop_S. fold imp.
  assert ((count_true support <=? n_features_to_select)%nat = false) as ->
      by (apply Nat.leb_gt; unfold n_features_to_select; lia).
  rewrite Eranks, (index_all_in_range _ _ Hrange). cbn [bind].
  replace (Nat.min step (count_true support - n_features_to_select))
    with 1%nat by (unfold step, n_features_to_select; lia).
  cbn [map firstn fold_left].
  now rewrite (nth_error_nth _ _ 0%nat Ef).
Qed.

End EliminationRound.

Lemma rfe_round_drops_least_witness :
  exists p r f,
    prepare sample_sqrt (wide 21) = Ok p
    /\ hd_error (argsort (sample_importances 0
                            (select (repeat true 21) (X_scaled p)) (y p)))
       = Some r
    /\ nth_error (features_of (repeat true 21)) r = Some f
    /\ nth f (repeat true 21) false = true
    /\ (forall w,
          In w (sample_importances 0
                  (select (repeat true 21) (X_scaled p)) (y p)) ->
          nth r (sample_importances 0
                   (select (repeat true 21) (X_scaled p)) (y p)) 0 <= w)
    /\ rfe_loop sample_importances 1 0 (X_scaled p) (y p) (repeat true 21)
       = rfe_loop sample_importances 0 1 (X_scaled p) (y p)
           (set_false f (repeat true 21))
    /\ S (count_true (set_false f (repeat true 21)))
       = count_true (repeat true 21)
    /\ forall i, i <> f ->
         nth i (set_false f (repeat true 21)) false
         = nth i (repeat true 21) false.
Proof.
  run_to p (prepare sample_sqrt (wide 21)).
  exists p.
  destruct (rfe_round_drops_least sample_importances
              sample_importances_shape (X_scaled p) (y p) 0 0
              (repeat true 21))
    as (r & f & R); [reflexivity | vm_compute; lia |].
  exists r, f. split; [exact H | exact R].
Defined.
